(** * EntityComponentSystem: the entity manager, its component storages and
    the health system, embedded from [EntityManager.h], [Component.h] and
    [Systems.h].

    Conventions of the embedding.
    - [Entity] is C++ [int]; ids, the id counter and [Health::hp] are
      integers of [Z] in the range of [int].  The only arithmetic of the
      sources is [nextId++] and [h.hp - 1]; their results are reduced to
      the range of [int] by [wrap], the two's complement result the
      compilers give at [INT_MAX] and [INT_MIN].
    - [std::vector<Entity>] is a list, [push_back] appends at the end.
    - [std::unordered_map<Entity, C>] is the list of its nodes in traversal
      order, with distinct keys.  Erasing a node keeps the order of the
      others and invalidates the iterators to that node alone.  An
      insertion either links the new node somewhere among the others,
      which keep their order and their iterators, or rehashes the table,
      which may put the nodes in any order and invalidates every
      iterator.  Which of the two happens, and where the nodes go, is not
      fixed by the standard: it is the parameter [slot] of the
      development.
    - The arguments of [emplace] are forwarded twice, once to build the
      component [data.emplace] is given and once more to build the one
      assigned when the key was there; an [arg] holds both components.
    - A traversal is given a number of steps it may take, its fuel; the
      callable may link nodes after the iterator for ever, and then no
      fuel is enough.
    - [std::unordered_map<std::type_index, std::unique_ptr<IComponentStorage>>]
      is a finite map from type identities to storages that remember which
      component type they were built for; [static_cast] is the checked
      [downcast].
    - An operation whose C++ meaning can be undefined returns an [outcome]. *)

From Stdlib Require Import ZArith Floats.SpecFloat.
From stdpp Require Import gmap list strings.

Open Scope Z_scope.

(** ** Outcomes *)

Inductive fault : Set :=
| BadDowncast                (* static_cast to a storage type the object does not have *)
| DanglingReference          (* write through a reference whose element is gone *)
| InvalidIterator            (* ++it on an iterator whose element was erased, or
                                after a rehash of its map *)
| OutOfFuel.                 (* not a fault of the program: the traversal was given
                                fewer steps than it takes *)

Inductive outcome (A : Type) : Type :=
| Done (a : A)
| Fault (f : fault).
Arguments Done {A} a.
Arguments Fault {A} f.

#[export] Instance outcome_ret : MRet outcome := @Done.
#[export] Instance outcome_bind : MBind outcome := λ A B k m,
  match m with
  | Done a => k a
  | Fault f => Fault f
  end.

Definition is_Done {A} (m : outcome A) : Prop := ∃ a, m = Done a.

(** ** Entities *)

(** [using Entity = int;] *)
Abbreviation Entity := Z (only parsing).

(** The largest and the smallest [int]. *)
Definition INT_MAX : Z := 2147483647.
Definition INT_MIN : Z := -2147483648.

(** The [int] an arithmetic result is stored as: the result itself when
    it is in range, and its two's complement reduction otherwise. *)
Definition wrap (z : Z) : Z := (z - INT_MIN) mod 2 ^ 32 + INT_MIN.

(** ** ComponentStorage<C> *)

(** [std::unordered_map<Entity, C> data]: the nodes in traversal order.
    [rehashes] counts the rehashes of the table and [erased] lists the keys
    of the nodes erased, the latest first; they are not members of the
    class but the means by which a traversal tells whether its iterator
    still points to a node. *)
Record ComponentStorage (A : Type) : Type := mkStorage {
  data : list (Entity * A);
  rehashes : nat;
  erased : list Entity
}.
Arguments mkStorage {A} data rehashes erased.
Arguments data {A} c.
Arguments rehashes {A} c.
Arguments erased {A} c.

(** The arguments [args...] of [emplace], by the components built from
    them: [fresh] is [C{std::forward<Args>(args)...}] at its first
    evaluation (line 54), [reused] the same expression evaluated once more
    (line 56), on what the first evaluation has left of the arguments. *)
Record arg (A : Type) : Type := mkArg {
  fresh : A;
  reused : A
}.
Arguments mkArg {A} fresh reused.
Arguments fresh {A} a.
Arguments reused {A} a.

(** Arguments that forwarding leaves as they are: lvalues and scalars. *)
Definition copied {A} (v : A) : arg A := mkArg v v.

(** What an insertion does to the table: it links the node at a position
    among the others, or it rehashes, and the nodes, the new one first,
    are put one after the other at the positions given. *)
Inductive placement : Set :=
| Link (n : nat)
| Rehash (ns : list nat).

Fixpoint arrange {X : Type} (ns : list nat) (l : list X) : list X :=
  match l with
  | [] => []
  | x0 :: l' =>
      let r := arrange (tail ns) l' in
      let n := default 0%nat (head ns) in
      take n r ++ x0 :: drop n r
  end.

Section storage.
Context {A : Type}.
(** What the map does with a node for a key it does not hold yet, given
    the keys it holds. *)
Context (slot : Entity → list Entity → placement).

Implicit Types (e : Entity) (v : A) (l : list (Entity * A)) (c : ComponentStorage A).

(** [ComponentStorage() = default] *)
Definition new_storage : ComponentStorage A := mkStorage [] 0%nat [].

(** The storage with other nodes, or other values in its nodes. *)
Definition with_data l c : ComponentStorage A := mkStorage l (rehashes c) (erased c).

(** [data.find(e)] *)
Fixpoint find e l : option A :=
  match l with
  | [] => None
  | (k, w) :: l' => if decide (k = e) then Some w else find e l'
  end.

(** [it->second = v] for the node [it] of key [e] *)
Fixpoint assign e v l : list (Entity * A) :=
  match l with
  | [] => []
  | (k, w) :: l' => if decide (k = e) then (k, v) :: l' else (k, w) :: assign e v l'
  end.

(** [data.erase(e)] *)
Definition erase e l : list (Entity * A) := filter (λ p, p.1 ≠ e) l.

Definition keys l : list Entity := l.*1.

(** [bool has(Entity e) const] *)
Definition has e c : bool := bool_decide (is_Some (find e (data c))).

(** [C* get(Entity e)]: the component, or [None] for [nullptr]. *)
Definition get e c : option A := find e (data c).

(** [C& emplace(Entity e, Args&&... args)]: [data.emplace] is given the
    component built from the arguments and inserts it when the key is
    absent; otherwise the node found is assigned the component built from
    the arguments a second time.  The reference returned is the slot of
    [e]. *)
Definition emplace e (a : arg A) c : ComponentStorage A :=
  match find e (data c) with
  | None =>
      match slot e (keys (data c)) with
      | Link n => with_data (take n (data c) ++ (e, fresh a) :: drop n (data c)) c
      | Rehash ns =>
          mkStorage (arrange ns ((e, fresh a) :: data c)) (S (rehashes c)) (erased c)
      end
  | Some _ => with_data (assign e (reused a) (data c)) c
  end.

(** [void remove(Entity e) override]: [data.erase(e)] erases the node of
    [e] if there is one. *)
Definition remove e c : ComponentStorage A :=
  if has e c then mkStorage (erase e (data c)) (rehashes c) (e :: erased c) else c.

(** How many times a node of key [e] was erased. *)
Definition erasures e c : nat := length (filter (λ k, k = e) (erased c)).

(** An iterator to the node of [e], valid in [c], is valid in [c']: the
    table was not rehashed and that node was not erased. *)
Definition iterator_valid e c c' : bool :=
  bool_decide (rehashes c' = rehashes c ∧ erasures e c' = erasures e c).

(** [all()]: the pairs a range-for over the map meets, in order. *)
Definition all c : list (Entity * A) := data c.

(** The map holds at most one node per key. *)
Definition unique_keys c : Prop := NoDup (keys (data c)).
End storage.

(** ** EntityManager *)

Section manager.
(** [std::type_index]: the identities of the component types, and the
    component type each one names. *)
Context `{Countable K} (C : K → Type).
Context (slot : Entity → list Entity → placement).

(** [std::unique_ptr<IComponentStorage>]: a [ComponentStorage<tag>] seen
    through the interface. *)
Record AnyStorage : Type := mkAny {
  tag : K;
  store : ComponentStorage (C tag)
}.

(** [virtual void remove(Entity e)] *)
Definition any_remove (e : Entity) (a : AnyStorage) : AnyStorage :=
  mkAny (tag a) (remove e (store a)).

(** [virtual bool has(Entity e) const] *)
Definition any_has (e : Entity) (a : AnyStorage) : bool := has e (store a).

Definition upcast {T : K} (c : ComponentStorage (C T)) : AnyStorage := mkAny T c.

(** [static_cast<ComponentStorage<T>*>(it->second.get())]: defined only
    when the object is a [ComponentStorage<T>]. *)
Definition downcast (T : K) (a : AnyStorage) : outcome (ComponentStorage (C T)) :=
  match decide (tag a = T) with
  | left Heq => Done (eq_rect (tag a) (λ k, ComponentStorage (C k)) (store a) T Heq)
  | right _ => Fault BadDowncast
  end.

Record EntityManager : Type := mkManager {
  nextId : Z;
  entities : list Entity;
  freeIds : list Entity;
  components : gmap K AnyStorage
}.

Implicit Types (s : EntityManager) (e id : Entity) (T : K).

(** [EntityManager() : nextId(0) {}] *)
Definition new_manager : EntityManager := mkManager 0 [] [] ∅.

(** [Entity createEntity()] *)
Definition createEntity s : Entity * EntityManager :=
  match last (freeIds s) with
  | Some id =>
      (id, mkManager (nextId s) (entities s ++ [id]) (removelast (freeIds s)) (components s))
  | None =>
      let id := nextId s in
      (id, mkManager (wrap (nextId s + 1)) (entities s ++ [id]) (freeIds s) (components s))
  end.

(** [void destroyEntity(Entity id)] *)
Definition destroyEntity id s : EntityManager :=
  mkManager (nextId s)
            (filter (λ x, x ≠ id) (entities s))
            (freeIds s ++ [id])
            (any_remove id <$> components s).

(** [components.find(ti)] followed by the cast of what was found. *)
Definition lookup_storage T s : outcome (option (ComponentStorage (C T))) :=
  match components s !! T with
  | None => Done None
  | Some a => c ← downcast T a; Done (Some c)
  end.

(** [components.emplace(ti, std::move(store))]: links the storage unless
    the registry already has one for [ti]. *)
Definition register T (c : ComponentStorage (C T)) s : EntityManager :=
  match components s !! T with
  | None => mkManager (nextId s) (entities s) (freeIds s) (<[T := upcast c]> (components s))
  | Some _ => s
  end.

(** The effect on the manager of a mutation made through [ptr]: the
    storage registered for [T] becomes [c]. *)
Definition store_through T (c : ComponentStorage (C T)) s : EntityManager :=
  mkManager (nextId s) (entities s) (freeIds s) (<[T := upcast c]> (components s)).

(** [T& addComponent(Entity e, Args&&... args)]: the arguments are
    forwarded to [emplace].  The reference returned is the slot of [e] in
    the storage of [T]. *)
Definition addComponent T e (a : arg (C T)) s : outcome EntityManager :=
  match components s !! T with
  | None =>
      let s1 := register T new_storage s in
      Done (store_through T (emplace slot e a new_storage) s1)
  | Some b =>
      c ← downcast T b;
      Done (store_through T (emplace slot e a c) s)
  end.

(** [void removeComponent(Entity e)] *)
Definition removeComponent T e s : outcome EntityManager :=
  match components s !! T with
  | None => Done s
  | Some a =>
      c ← downcast T a;
      Done (store_through T (remove e c) s)
  end.

(** [bool hasComponent(Entity e) const] *)
Definition hasComponent T e s : outcome bool :=
  match components s !! T with
  | None => Done false
  | Some a => c ← downcast T a; Done (has e c)
  end.

(** [T* getComponent(Entity e)]: [None] is [nullptr]. *)
Definition getComponent T e s : outcome (option (C T)) :=
  match components s !! T with
  | None => Done None
  | Some a => c ← downcast T a; Done (get e c)
  end.

(** A write through a [T&] or [T*] that designates the component of [e]. *)
Definition write_component T e (v : C T) s : outcome EntityManager :=
  oc ← lookup_storage T s;
  match oc with
  | Some c => if has e c then Done (store_through T (with_data (assign e v (data c)) c) s)
              else Fault DanglingReference
  | None => Fault DanglingReference
  end.

(** *** forEach *)

Section traversal.
Context {U : Type} (T : K).

(** A callable [func(Entity, T&)]: [U] is what the closure captures
    besides the manager, which it may change through its reference. *)
Definition visitor : Type :=
  Entity → C T → EntityManager * U → outcome (EntityManager * U).

(** The map an iterator of the traversal points into. *)
Definition traversed s : outcome (ComponentStorage (C T)) :=
  oc ← lookup_storage T s;
  match oc with
  | Some c => Done c
  | None => Fault InvalidIterator
  end.

(** The nodes that follow the node of [k]: what [++it] leads to. *)
Fixpoint after (k : Entity) (l : list Entity) : list Entity :=
  match l with
  | [] => []
  | j :: l' => if decide (j = k) then l' else after k l'
  end.

(** [for (auto& kv : ptr->all()) func(kv.first, kv.second);] from the
    iterator on.  [pending] is the sequence of the nodes from the iterator
    to the end, the iterator's node first; the loop ends when there is
    none.  After the call the iterator is incremented: it must still be
    valid, and it then leads to the nodes that follow its node in the map
    as the call has left it. *)
Fixpoint forEach_from (fuel : nat) (func : visitor) (pending : list Entity)
    (st : EntityManager * U) : outcome (EntityManager * U) :=
  match pending with
  | [] => Done st
  | k :: _ =>
      match fuel with
      | O => Fault OutOfFuel
      | S fuel' =>
          c ← traversed st.1;
          match get k c with
          | None => Fault InvalidIterator
          | Some v =>
              st' ← func k v st;
              c' ← traversed st'.1;
              if iterator_valid k c c'
              then forEach_from fuel' func (after k (keys (all c'))) st'
              else Fault InvalidIterator
          end
      end
  end.

(** [void forEach(Func func)], with [fuel] steps at most. *)
Definition forEach (fuel : nat) (func : visitor) (st : EntityManager * U)
  : outcome (EntityManager * U) :=
  oc ← lookup_storage T st.1;
  match oc with
  | None => Done st
  | Some c => forEach_from fuel func (keys (all c)) st
  end.

(** The number of nodes of the storage of [T]: the steps a traversal takes
    when its callable links no node. *)
Definition nodes s : nat :=
  match lookup_storage T s with
  | Done (Some c) => length (all c)
  | _ => 0%nat
  end.

(** [void forEach(Func func) const]: the callable sees [const T&] and a
    manager it cannot change. *)
Definition forEach_const (func : Entity → C T → U → U) s (u : U) : outcome U :=
  oc ← lookup_storage T s;
  match oc with
  | None => Done u
  | Some c => Done (foldl (λ acc kv, func kv.1 kv.2 acc) u (all c))
  end.
End traversal.

(** The pairs [forEach<T>] hands to its callable, in order, as a callable
    that only records them sees them. *)
Definition visited T s : outcome (list (Entity * C T)) :=
  forEach_const T (λ e v log, log ++ [(e, v)]) s [].

(** *** Sequences of calls *)

Inductive call : Type :=
| CreateEntity
| DestroyEntity (id : Entity)
| AddComponent (T : K) (e : Entity) (a : arg (C T))
| RemoveComponent (T : K) (e : Entity).

Definition exec (c : call) s : outcome EntityManager :=
  match c with
  | CreateEntity => Done (createEntity s).2
  | DestroyEntity id => Done (destroyEntity id s)
  | AddComponent T e a => addComponent T e a s
  | RemoveComponent T e => removeComponent T e s
  end.

Fixpoint run (cs : list call) s : outcome EntityManager :=
  match cs with
  | [] => Done s
  | c :: cs' => s' ← exec c s; run cs' s'
  end.

(** The ids [createEntity] returns along a sequence of calls. *)
Fixpoint issued (cs : list call) s : list Entity :=
  match cs with
  | [] => []
  | c :: cs' =>
      match exec c s with
      | Done s' =>
          match c with
          | CreateEntity => (createEntity s).1 :: issued cs' s'
          | _ => issued cs' s'
          end
      | Fault _ => []
      end
  end.

Definition reachable s : Prop := ∃ cs, run cs new_manager = Done s.

(** *** Invariants of the registry *)

(** What is registered under [T] is a [ComponentStorage<T>]. *)
Definition registry_typed s : Prop :=
  ∀ k a, components s !! k = Some a → tag a = k.

(** ... and its map has one node per key at most. *)
Definition manager_ok s : Prop :=
  ∀ k a, components s !! k = Some a → tag a = k ∧ unique_keys (store a).
End manager.

Arguments mkAny {K C}.
Arguments tag {K C}.
Arguments store {K C}.
Arguments any_remove {K C}.
Arguments any_has {K C}.
Arguments upcast {K C T}.
Arguments downcast {K _ C}.
Arguments mkManager {K _ _ C}.
Arguments nextId {K _ _ C}.
Arguments entities {K _ _ C}.
Arguments freeIds {K _ _ C}.
Arguments components {K _ _ C}.
Arguments new_manager {K _ _ C}.
Arguments createEntity {K _ _ C}.
Arguments destroyEntity {K _ _ C}.
Arguments lookup_storage {K _ _ C}.
Arguments register {K _ _ C}.
Arguments store_through {K _ _ C}.
Arguments addComponent {K _ _ C}.
Arguments removeComponent {K _ _ C}.
Arguments hasComponent {K _ _ C}.
Arguments getComponent {K _ _ C}.
Arguments write_component {K _ _ C}.
Arguments visitor {K _ _} C U T.
Arguments traversed {K _ _ C}.
Arguments forEach_from {K _ _ C U}.
Arguments forEach {K _ _ C U}.
Arguments forEach_const {K _ _ C U}.
Arguments nodes {K _ _ C}.
Arguments visited {K _ _ C}.
Arguments CreateEntity {K C}.
Arguments DestroyEntity {K C}.
Arguments AddComponent {K C}.
Arguments RemoveComponent {K C}.
Arguments exec {K _ _ C}.
Arguments run {K _ _ C}.
Arguments issued {K _ _ C}.
Arguments reachable {K _ _ C}.
Arguments registry_typed {K _ _ C}.
Arguments manager_ok {K _ _ C}.

(** ** Observing a traversal *)

Section observing.
Context `{Countable K} {C : K → Type} {U : Type} (T : K).

(** The callable [func] made to record, after each of its calls, the pair
    it was called on. *)
Definition logged (func : visitor C U T) : visitor C (U * list (Entity * C T)) T :=
  λ k v st,
    r ← func k v (st.1, st.2.1);
    Done (r.1, (r.2, st.2.2 ++ [(k, v)])).
End observing.

(** ** Component.h *)

(** C++ [float]: IEEE 754 binary32 values. *)
Definition float : Type := spec_float.

Record Position : Type := mkPosition { x : float; y : float }.

Record Velocity : Type := mkVelocity { dx : float; dy : float }.

Record Health : Type := mkHealth { hp : Z }.

Record Name : Type := mkName { value : string }.

(** [typeid(T)] for the component types of the program. *)
Inductive CompId : Set := TPosition | TVelocity | THealth | TName.

#[export] Instance CompId_eq_dec : EqDecision CompId.
Proof. solve_decision. Defined.

Definition CompId_code (k : CompId) : nat :=
  match k with TPosition => 0 | TVelocity => 1 | THealth => 2 | TName => 3 end%nat.

Definition CompId_of_code (n : nat) : CompId :=
  match n with 0 => TPosition | 1 => TVelocity | 2 => THealth | _ => TName end%nat.

#[export] Instance CompId_countable : Countable CompId.
Proof. apply (inj_countable' CompId_code CompId_of_code). by intros []. Defined.

Definition Comp (k : CompId) : Type :=
  match k with
  | TPosition => Position
  | TVelocity => Velocity
  | THealth => Health
  | TName => Name
  end.

(** The manager of the program. *)
Abbreviation Manager := (EntityManager Comp).

(** A [Name] passed to [addComponent<Name>] as an rvalue, as [main] passes
    [Name{ ... }]: the first forward moves its string into the component
    built; the string moved from is left empty by the standard libraries,
    and that is what the second forward finds. *)
Definition rvalue_name (n : Name) : arg Name := mkArg n (mkName EmptyString).

(** ** Systems.h: HealthSystem *)

(** The callable of [HealthSystem::update].  What it writes to [std::cout]
    is kept as the list of the ids it names.
[[
  h.hp = std::max(0, h.hp - 1);
  if (h.hp == 0) { std::cout << ... << e << ...; mgr.destroyEntity(e); }
]] *)
Definition health_visit : visitor Comp (list Entity) THealth := λ e h st,
  let hp' := Z.max 0 (wrap (hp h - 1)) in
  m ← write_component THealth e (mkHealth hp') st.1;
  if decide (hp' = 0) then Done (destroyEntity e m, st.2 ++ [e])
  else Done (m, st.2).

(** [void HealthSystem::update()] *)
Definition HealthSystem_update (fuel : nat) (s : Manager) (out : list Entity)
  : outcome (Manager * list Entity) :=
  forEach THealth fuel health_visit (s, out).

(** ** Systems.h: MovementSystem and RenderSystem *)

Section movement.
(** [a + b] and [a * b] on [float].  How C++ rounds them (evaluation
    method, contraction of the product into the sum) is the
    implementation's: they are parameters. *)
Context (fadd fmul : float → float → float).

(** [pos->x += v.dx * dt; pos->y += v.dy * dt;] *)
Definition moved (dt : float) (p : Position) (v : Velocity) : Position :=
  mkPosition (fadd (x p) (fmul (dx v) dt)) (fadd (y p) (fmul (dy v) dt)).

(** The callable of [MovementSystem::update]: the closure captures the
    manager and [dt] only.
[[
  if (auto pos = mgr.getComponent<Position>(e)) {
      pos->x += v.dx * dt;
      pos->y += v.dy * dt;
  }
]] *)
Definition movement_visit (dt : float) : visitor Comp unit TVelocity := λ e v st,
  op ← getComponent TPosition e st.1;
  match op with
  | Some p =>
      let x' := fadd (x p) (fmul (dx v) dt) in
      m1 ← write_component TPosition e (mkPosition x' (y p)) st.1;
      m2 ← write_component TPosition e (mkPosition x' (fadd (y p) (fmul (dy v) dt))) m1;
      Done (m2, st.2)
  | None => Done st
  end.

(** [void MovementSystem::update(float dt)] *)
Definition MovementSystem_update (fuel : nat) (dt : float) (s : Manager) : outcome Manager :=
  r ← forEach TVelocity fuel (movement_visit dt) (s, tt); Done r.1.

(** The positions [d] after the callable has run on each pair of [l]. *)
Definition advance (dt : float) (l : list (Entity * Velocity))
    (d : list (Entity * Position)) : list (Entity * Position) :=
  foldl (λ d kv, match find kv.1 d with
                 | Some p => assign kv.1 (moved dt p kv.2) d
                 | None => d
                 end) d l.
End movement.

(** What [RenderSystem::render] streams to [std::cout] for one entity, in
    the order of the insertions: the name, the id, the two coordinates and
    the health.  The text the stream makes of them is not modelled. *)
Record RenderLine : Type := mkLine {
  line_name : string;
  line_id : Entity;
  line_x : float;
  line_y : float;
  line_hp : Z
}.

(** The callable of [RenderSystem::render].
[[
  const Name* n = mgr.getComponent<Name>(e);
  const Health* h = mgr.getComponent<Health>(e);
  std::cout << (n ? n->value : "unnamed") << "[" << e << "]"
            << " pos=(" << p.x << "," << p.y << ")"
            << " hp=" << (h ? h->hp : -1) << "\n";
]] *)
Definition render_visit : visitor Comp (list RenderLine) TPosition := λ e p st,
  n ← getComponent TName e st.1;
  h ← getComponent THealth e st.1;
  Done (st.1, st.2 ++ [mkLine (from_option value "unnamed" n) e (x p) (y p)
                              (from_option hp (-1) h)]).

(** [void RenderSystem::render()] *)
Definition RenderSystem_render (fuel : nat) (s : Manager) (out : list RenderLine)
  : outcome (Manager * list RenderLine) :=
  forEach TPosition fuel render_visit (s, out).

(** The line [render_visit] streams for entity [e] at position [p], read
    off the manager [s]. *)
Definition render_line (s : Manager) (e : Entity) (p : Position) : RenderLine :=
  mkLine (match getComponent TName e s with Done (Some n) => value n | _ => "unnamed" end)
         e (x p) (y p)
         (match getComponent THealth e s with Done (Some h) => hp h | _ => -1 end).

(** [healthSystem.update()] once per tick, [n] ticks, each traversal with
    [fuel] steps at most. *)
Fixpoint HealthSystem_ticks (n : nat) (fuel : nat) (s : Manager) (out : list Entity)
  : outcome (Manager * list Entity) :=
  match n with
  | O => Done (s, out)
  | S n' => r ← HealthSystem_update fuel s out; HealthSystem_ticks n' fuel r.1 r.2
  end.

(** IEEE 754 binary32 addition and multiplication, rounding to nearest. *)
Definition binary32_add : float → float → float := SFadd 24 128.
Definition binary32_mul : float → float → float := SFmul 24 128.

(** What one update makes of a health that stays positive. *)
Definition tick (h : Health) : Health := mkHealth (Z.max 0 (wrap (hp h - 1))).

(** The nodes [d] after the callable has written the new health of each
    pair of [l] in turn. *)
Definition aged (l d : list (Entity * Health)) : list (Entity * Health) :=
  foldl (λ d kv, assign kv.1 (tick kv.2) d) d l.

(** A hash table that links every new node at the head of its list. *)
Definition front : Entity → list Entity → placement := λ _ _, Link 0.


(** The manager after [main]-like calls under [front]: entity 0 with a
    health of 3 and a name, entity 1 with a health of 5. *)
Definition demo_calls : list (call Comp) :=
  [CreateEntity; AddComponent THealth 0 (copied (mkHealth 3));
   AddComponent TName 0 (rvalue_name (mkName "hero"));
   CreateEntity; AddComponent THealth 1 (copied (mkHealth 5))].

Definition demo : Manager :=
  mkManager 2 [0; 1] []
    (<[THealth := upcast (T:=THealth) (mkStorage [(1, mkHealth 5); (0, mkHealth 3)] 0 [])]>
       (<[TName := upcast (T:=TName) (mkStorage [(0, mkName "hero")] 0 [])]> ∅)).

(** The manager after [addComponent<Health>(7, 5)] on a new manager: a
    component on an entity that was never created. *)
Definition stray : Manager :=
  mkManager 0 [] [] (<[THealth := upcast (T:=THealth) (mkStorage [(7, mkHealth 5)] 0 [])]> ∅).

(** The floats [0.0f] and [1.0f]. *)
Definition f0 : float := S754_zero false.
Definition f1 : float := S754_finite false 8388608 (-23).

(** A manager with positions and velocities under [front]: entity 0 at
    the origin with a velocity, a health and a name, entity 1 with a
    position only, entity 2 with a velocity only. *)
Definition world_calls : list (call Comp) :=
  [CreateEntity; AddComponent TPosition 0 (copied (mkPosition f0 f0));
   AddComponent TVelocity 0 (copied (mkVelocity f1 f1));
   AddComponent THealth 0 (copied (mkHealth 100));
   AddComponent TName 0 (rvalue_name (mkName "Entity_0"));
   CreateEntity; AddComponent TPosition 1 (copied (mkPosition f1 f0));
   CreateEntity; AddComponent TVelocity 2 (copied (mkVelocity f1 f0))].

Definition world : Manager :=
  mkManager 3 [0; 1; 2] []
    (<[TPosition := upcast (T:=TPosition)
                      (mkStorage [(1, mkPosition f1 f0); (0, mkPosition f0 f0)] 0 [])]>
       (<[TVelocity := upcast (T:=TVelocity)
                         (mkStorage [(2, mkVelocity f1 f0); (0, mkVelocity f1 f1)] 0 [])]>
          (<[THealth := upcast (T:=THealth) (mkStorage [(0, mkHealth 100)] 0 [])]>
             (<[TName := upcast (T:=TName) (mkStorage [(0, mkName "Entity_0")] 0 [])]> ∅)))).

(** A callable that erases, from the storage it is called on, the health
    of the entity after the one it is called on. *)
Definition cull_next : visitor Comp nat THealth := λ k _ st,
  m ← removeComponent THealth (k + 1) st.1; Done (m, S st.2).

(** A callable that, called on entity 0, gives entity 5 a health, in the
    storage it is called on; it counts its calls. *)
Definition spawn (slot : Entity → list Entity → placement) : visitor Comp nat THealth :=
  λ k _ st,
    if decide (k = 0)
    then m ← addComponent slot THealth 5 (copied (mkHealth 9)) st.1; Done (m, S st.2)
    else Done (st.1, S st.2).

(** A callable that only reads: it sums the healths. *)
Definition sum_health : visitor Comp Z THealth := λ _ h st, Done (st.1, st.2 + hp h).

(** ** Predicates the properties are stated with *)

Section predicates.
Context `{Countable K} {C : K → Type}.

(** The bookkeeping of ids is sound: no id is live twice, none is both live
    and free or twice free, and every id around was issued by the counter. *)
Definition ids_ok (s : EntityManager C) : Prop :=
  0 ≤ nextId s ∧
  NoDup (entities s ++ freeIds s) ∧
  ∀ x, x ∈ entities s ++ freeIds s → 0 ≤ x < nextId s.

(** A sequence of calls that passes to [destroyEntity] only ids that are
    live at the call. *)
Fixpoint destroys_live (slot : Entity → list Entity → placement) (cs : list (call C))
    (s : EntityManager C) : Prop :=
  match cs with
  | [] => True
  | c :: cs' =>
      match c with DestroyEntity id => id ∈ entities s | _ => True end ∧
      match exec slot c s with
      | Done s' => destroys_live slot cs' s'
      | Fault _ => True
      end
  end.

(** Every component in a storage belongs to a live entity. *)
Definition components_live (s : EntityManager C) : Prop :=
  ∀ T c e, lookup_storage T s = Done (Some c) → has e c = true → e ∈ entities s.

(** Every id the counter has issued is live or free, once. *)
Definition ids_full (s : EntityManager C) : Prop :=
  0 ≤ nextId s ∧ entities s ++ freeIds s ≡ₚ seqZ 0 (nextId s).
End predicates.

(** * Facts *)

(** ** ComponentStorage<C> *)

Section storage_facts.
Context {A : Type} (slot : Entity → list Entity → placement).
Implicit Types (e : Entity) (v : A) (l : list (Entity * A)) (c : ComponentStorage A).

(** *** The association list *)

Lemma find_Some_elem e v l : find e l = Some v → (e, v) ∈ l.
Proof.
  induction l as [|[k w] l IH]; simpl; [done|].
  case_decide; [intros [= <-]; subst k; left | intros; right; auto].
Qed.

Lemma find_None_keys e l : find e l = None ↔ e ∉ keys l.
Proof.
  unfold keys. induction l as [|[k w] l IH]; simpl.
  - split; [intros _; apply not_elem_of_nil | done].
  - rewrite not_elem_of_cons. case_decide as Hk.
    + split; [done | intros [? _]; done].
    + rewrite IH. split; [by intros ? | by intros [_ ?]].
Qed.

Lemma find_is_Some_keys e l : is_Some (find e l) ↔ e ∈ keys l.
Proof.
  destruct (find e l) eqn:E.
  - split; [intros _ | eauto].
    destruct (decide (e ∈ keys l)) as [|n]; [done|].
    apply find_None_keys in n. congruence.
  - split; [intros [? [=]] | intros Hin].
    apply find_None_keys in E. done.
Qed.

Lemma elem_find_unique e v l : NoDup (keys l) → (e, v) ∈ l → find e l = Some v.
Proof.
  unfold keys. induction l as [|[k w] l IH]; simpl; intros Hnd Hin.
  - by apply elem_of_nil in Hin.
  - apply NoDup_cons in Hnd as [Hk Hnd].
    apply elem_of_cons in Hin as [[= -> ->]|Hin].
    + by rewrite decide_True.
    + case_decide; subst; [|auto].
      exfalso. apply Hk. apply (list_elem_of_fmap_2 fst) in Hin. done.
Qed.

Lemma keys_assign e v l : keys (assign e v l) = keys l.
Proof.
  unfold keys. induction l as [|[k w] l IH]; simpl; [done|].
  case_decide; simpl; [done | by f_equal].
Qed.

Lemma find_assign e e' v l :
  find e' (assign e v l) = if decide (e = e') then (λ _, v) <$> find e l else find e' l.
Proof.
  induction l as [|[k w] l IH]; simpl; [by case_decide|].
  destruct (decide (k = e)) as [->|Hk]; simpl.
  - destruct (decide (e = e')) as [->|]; [done|]. done.
  - destruct (decide (k = e')) as [->|Hk'].
    + by rewrite decide_False.
    + rewrite IH. done.
Qed.

Lemma find_erase e e' l :
  find e' (erase e l) = if decide (e = e') then None else find e' l.
Proof.
  unfold erase. induction l as [|[k w] l IH]; [by case_decide|].
  rewrite filter_cons. cbn [fst find].
  destruct (decide (k ≠ e)) as [Hk|Hk]; cbn [find]; rewrite IH.
  - repeat case_decide; simplify_eq; done.
  - apply dec_stable in Hk. repeat case_decide; simplify_eq; done.
Qed.

Lemma erase_absent e l : e ∉ keys l → erase e l = l.
Proof.
  unfold erase, keys. induction l as [|[k w] l IH]; simpl; [done|].
  rewrite not_elem_of_cons. intros [Hne Hl].
  rewrite filter_cons_True; [|simpl; congruence]. by rewrite IH.
Qed.

Lemma keys_erase e l : keys (erase e l) = filter (λ k, k ≠ e) (keys l).
Proof.
  unfold erase, keys. induction l as [|[k w] l IH]; [done|].
  rewrite fmap_cons, !filter_cons. cbn [fst].
  case_decide; [rewrite fmap_cons|]; by rewrite IH.
Qed.

Lemma find_insert_at n e e' v l :
  find e l = None →
  find e' (take n l ++ (e, v) :: drop n l) = if decide (e = e') then Some v else find e' l.
Proof.
  revert n. induction l as [|[k w] l IH]; intros n Hnone.
  - rewrite take_nil, drop_nil. simpl. done.
  - simpl in Hnone. destruct (decide (k = e)) as [|Hk]; [done|].
    destruct n as [|n]; simpl; [done|].
    rewrite (IH n Hnone).
    destruct (decide (k = e')) as [->|]; [by rewrite decide_False | done].
Qed.

Lemma keys_insert_at n e v l :
  keys (take n l ++ (e, v) :: drop n l) ≡ₚ e :: keys l.
Proof.
  unfold keys. rewrite fmap_app, fmap_cons. simpl.
  rewrite <- Permutation_middle. rewrite <- fmap_app, take_drop. done.
Qed.

(** *** Rehashing *)

Lemma arrange_Permutation {X} (ns : list nat) (l : list X) : arrange ns l ≡ₚ l.
Proof.
  revert ns. induction l as [|x0 l IH]; intros ns; cbn [arrange]; [done|].
  rewrite <- Permutation_middle, take_drop. by rewrite IH.
Qed.

Lemma fmap_arrange {X Y} (f : X → Y) (ns : list nat) (l : list X) :
  f <$> arrange ns l = arrange ns (f <$> l).
Proof.
  revert ns. induction l as [|x0 l IH]; intros ns; cbn [arrange fmap list_fmap]; [done|].
  rewrite fmap_app, fmap_cons, fmap_take, fmap_drop. by rewrite IH.
Qed.

Lemma keys_arrange ns l : keys (arrange ns l) ≡ₚ keys l.
Proof. unfold keys. rewrite fmap_arrange. apply arrange_Permutation. Qed.

(** With one node per key, what [find] finds does not depend on the order
    of the nodes. *)
Lemma find_Permutation e l l' : NoDup (keys l) → l ≡ₚ l' → find e l' = find e l.
Proof.
  intros Hnd Hp.
  assert (Hnd' : NoDup (keys l')) by (unfold keys; by rewrite <- Hp).
  destruct (find e l) as [v|] eqn:E.
  - apply elem_find_unique; [done|]. rewrite <- Hp. by apply find_Some_elem.
  - apply find_None_keys. unfold keys. rewrite <- Hp. by apply find_None_keys.
Qed.

(** *** What the storage operations do *)

Lemma has_get e c : has e c = bool_decide (is_Some (get e c)).
Proof. done. Qed.

Lemma has_true e c : has e c = true ↔ e ∈ keys (data c).
Proof. unfold has. rewrite bool_decide_eq_true. apply find_is_Some_keys. Qed.

Lemma has_false e c : has e c = false ↔ e ∉ keys (data c).
Proof. unfold has. rewrite bool_decide_eq_false, find_is_Some_keys. done. Qed.

Lemma get_Some_has e c v : get e c = Some v → has e c = true.
Proof. intros Hg. rewrite has_get, Hg. by apply bool_decide_eq_true. Qed.

Lemma has_same_keys e c c' : keys (data c') = keys (data c) → has e c' = has e c.
Proof.
  intros Hk. destruct (has e c) eqn:E.
  - apply has_true. rewrite Hk. by apply has_true in E.
  - apply has_false. rewrite Hk. by apply has_false in E.
Qed.

(** The nodes after an insertion: the new one and the old ones, in some
    order. *)
Lemma data_emplace_new e (a : arg A) c :
  has e c = false → data (emplace slot e a c) ≡ₚ (e, fresh a) :: data c.
Proof.
  intros Hn%has_false%find_None_keys. unfold emplace. rewrite Hn.
  destruct (slot e (keys (data c))) as [n|ns]; cbn [data with_data].
  - by rewrite <- Permutation_middle, take_drop.
  - apply arrange_Permutation.
Qed.

Lemma data_emplace_old e (a : arg A) c :
  has e c = true → emplace slot e a c = with_data (assign e (reused a) (data c)) c.
Proof.
  intros [w Hw]%has_true%find_is_Some_keys. unfold emplace. by rewrite Hw.
Qed.

Lemma keys_emplace e (a : arg A) c :
  keys (data (emplace slot e a c)) ≡ₚ if has e c then keys (data c) else e :: keys (data c).
Proof.
  destruct (has e c) eqn:E.
  - rewrite data_emplace_old by done. cbn [data with_data]. by rewrite keys_assign.
  - unfold keys. by rewrite data_emplace_new.
Qed.

Lemma unique_keys_new : unique_keys (@new_storage A).
Proof. apply NoDup_nil_2. Qed.

Lemma unique_keys_emplace e (a : arg A) c : unique_keys c → unique_keys (emplace slot e a c).
Proof.
  unfold unique_keys. intros Hc. rewrite keys_emplace. destruct (has e c) eqn:E; [done|].
  apply NoDup_cons. split; [by apply has_false|done].
Qed.

(** [emplace] then [get]: the entity has the component built from the
    arguments, at their first use when it had none and at their second
    when it had one. *)
Lemma get_emplace e e' (a : arg A) c :
  unique_keys c →
  get e' (emplace slot e a c) =
  if decide (e = e') then Some (if has e c then reused a else fresh a) else get e' c.
Proof.
  intros Hc. unfold get. destruct (has e c) eqn:E.
  - rewrite data_emplace_old by done. cbn [data with_data]. rewrite find_assign.
    apply has_true, find_is_Some_keys in E as [w Hw]. rewrite Hw. by case_decide.
  - assert (Hnd : NoDup (keys ((e, fresh a) :: data c))).
    { unfold keys. rewrite fmap_cons. apply NoDup_cons. split; [by apply has_false|done]. }
    rewrite (find_Permutation e' _ _ Hnd) by (symmetry; by apply data_emplace_new).
    cbn [find]. done.
Qed.

Lemma has_emplace e e' (a : arg A) c :
  has e' (emplace slot e a c) = if decide (e = e') then true else has e' c.
Proof.
  destruct (has e' (emplace slot e a c)) eqn:E.
  - apply has_true in E. rewrite keys_emplace in E. case_decide as Hd; [done|].
    symmetry. apply has_true. destruct (has e c); [done|].
    by apply elem_of_cons in E as [->|E].
  - apply has_false in E. rewrite keys_emplace in E. case_decide as Hd.
    + subst e'. exfalso. apply E. destruct (has e c) eqn:E'; [by apply has_true | left].
    + symmetry. apply has_false. intros Hin. apply E.
      destruct (has e c); [done | by right].
Qed.

Lemma remove_present e c :
  has e c = true → remove e c = mkStorage (erase e (data c)) (rehashes c) (e :: erased c).
Proof. intros Hh. unfold remove. by rewrite Hh. Qed.

Lemma remove_absent e c : has e c = false → remove e c = c.
Proof. intros Hh. unfold remove. by rewrite Hh. Qed.

Lemma data_remove e c : data (remove e c) = erase e (data c).
Proof.
  unfold remove. destruct (has e c) eqn:E; [done|].
  apply has_false in E. by rewrite erase_absent.
Qed.

Lemma rehashes_remove e c : rehashes (remove e c) = rehashes c.
Proof. unfold remove. by destruct (has e c). Qed.

Lemma get_remove e e' c :
  get e' (remove e c) = if decide (e = e') then None else get e' c.
Proof. unfold get. rewrite data_remove. apply find_erase. Qed.

Lemma has_remove e e' c :
  has e' (remove e c) = if decide (e = e') then false else has e' c.
Proof.
  rewrite !has_get, get_remove. case_decide; [|done].
  apply bool_decide_eq_false. by intros [? [=]].
Qed.

Lemma unique_keys_remove e c : unique_keys c → unique_keys (remove e c).
Proof.
  unfold unique_keys. rewrite data_remove, keys_erase. apply NoDup_filter.
Qed.

Lemma elem_all_get e v c : unique_keys c → (e, v) ∈ all c ↔ get e c = Some v.
Proof.
  intros Hc. split; [by apply elem_find_unique | apply find_Some_elem].
Qed.
End storage_facts.

(** ** The outcome monad *)

Lemma bind_Done {A B} (k : A → outcome B) (a : A) : Done a ≫= k = k a.
Proof. done. Qed.

Ltac bind_done := rewrite bind_Done; cbv beta.

(** Closes [x ∉ [a; b; ...]] for distinct numerals. *)
Ltac not_listed :=
  cbn; repeat (apply not_elem_of_cons; split; [discriminate|]); apply not_elem_of_nil.

Lemma bind_Done_inv {A B} (k : A → outcome B) (m : outcome A) (b : B) :
  m ≫= k = Done b → ∃ a, m = Done a ∧ k a = Done b.
Proof. destruct m as [a|f]; [eauto | done]. Qed.

(** ** The registry and its casts *)

Section registry_facts.
Context `{Countable K} {C : K → Type}.
Implicit Types (s : EntityManager C) (e id : Entity) (T : K) (a : AnyStorage C).

Lemma downcast_upcast T (c : ComponentStorage (C T)) : downcast T (upcast c) = Done c.
Proof.
  unfold downcast, upcast. simpl. destruct (decide (T = T)) as [Heq|]; [|done].
  by rewrite (proof_irrel Heq eq_refl).
Qed.

Lemma downcast_typed T a :
  tag a = T → ∃ c : ComponentStorage (C T), a = upcast c ∧ downcast T a = Done c.
Proof.
  destruct a as [k c]. simpl. intros <-. exists c. split; [done|].
  apply downcast_upcast.
Qed.

Lemma downcast_mistyped T a : tag a ≠ T → downcast T a = Fault BadDowncast.
Proof. intros Hne. unfold downcast. by destruct (decide (tag a = T)). Qed.

Lemma downcast_Done T a c : downcast T a = Done c → a = upcast c.
Proof.
  intros Hd. destruct (decide (tag a = T)) as [Ht|Ht].
  - destruct (downcast_typed T a Ht) as (c' & -> & Hc'). congruence.
  - rewrite downcast_mistyped in Hd; done.
Qed.

Lemma downcast_any_remove T e a :
  downcast T (any_remove e a) = c ← downcast T a; Done (remove e c).
Proof.
  destruct (decide (tag a = T)) as [Ht|Ht].
  - destruct (downcast_typed T a Ht) as (c & -> & ->).
    change (any_remove e (upcast c)) with (upcast (remove e c)).
    by rewrite downcast_upcast.
  - rewrite !downcast_mistyped; done.
Qed.

(** *** [lookup_storage] *)

Lemma lookup_storage_None T s :
  components s !! T = None → lookup_storage T s = Done None.
Proof. unfold lookup_storage. by intros ->. Qed.

Lemma lookup_storage_upcast T s (c : ComponentStorage (C T)) :
  components s !! T = Some (upcast c) → lookup_storage T s = Done (Some c).
Proof. unfold lookup_storage. intros ->. by rewrite downcast_upcast. Qed.

Lemma lookup_storage_Some T s c :
  lookup_storage T s = Done (Some c) → components s !! T = Some (upcast c).
Proof.
  unfold lookup_storage. destruct (components s !! T) as [a|]; [|done].
  intros (c' & Hd & [= ->])%bind_Done_inv. by apply downcast_Done in Hd as ->.
Qed.

(** Under the typing invariant a lookup never faults. *)
Lemma lookup_storage_typed T s :
  registry_typed s →
  (components s !! T = None ∧ lookup_storage T s = Done None) ∨
  (∃ c, components s !! T = Some (upcast c) ∧ lookup_storage T s = Done (Some c)).
Proof.
  intros Hty. destruct (components s !! T) as [a|] eqn:E.
  - right. destruct (downcast_typed T a (Hty _ _ E)) as (c & -> & _).
    exists c. split; [done|]. by apply lookup_storage_upcast.
  - left. split; [done|]. by apply lookup_storage_None.
Qed.

Lemma lookup_storage_is_Done T s : registry_typed s → is_Done (lookup_storage T s).
Proof.
  intros Hty. destruct (lookup_storage_typed T s Hty) as [[_ ->]|(c & _ & ->)];
    by eexists.
Qed.

Lemma lookup_storage_components T s s' :
  components s = components s' → lookup_storage T s = lookup_storage T s'.
Proof. unfold lookup_storage. by intros ->. Qed.

Lemma lookup_store_through T (c : ComponentStorage (C T)) s :
  lookup_storage T (store_through T c s) = Done (Some c).
Proof. apply lookup_storage_upcast. simpl. apply lookup_insert_eq. Qed.

Lemma components_store_through_ne T T' (c : ComponentStorage (C T)) s :
  T ≠ T' → components (store_through T c s) !! T' = components s !! T'.
Proof. intros Hne. simpl. by apply lookup_insert_ne. Qed.

Lemma lookup_store_through_ne T T' (c : ComponentStorage (C T)) s :
  T ≠ T' → lookup_storage T' (store_through T c s) = lookup_storage T' s.
Proof.
  intros Hne. unfold lookup_storage. by rewrite components_store_through_ne.
Qed.

Lemma store_through_register T (c c' : ComponentStorage (C T)) s :
  components s !! T = None →
  store_through T c (register T c' s) = store_through T c s.
Proof.
  intros Hn. unfold register. rewrite Hn. unfold store_through. simpl.
  by rewrite insert_insert_eq.
Qed.

Lemma lookup_destroyEntity T id s :
  lookup_storage T (destroyEntity id s) =
  lookup_storage T s ≫= λ oc : option (ComponentStorage (C T)), Done (remove id <$> oc).
Proof.
  unfold lookup_storage. simpl. rewrite lookup_fmap.
  destruct (components s !! T) as [a|]; simpl; [|done].
  rewrite downcast_any_remove. by destruct (downcast T a).
Qed.

Lemma lookup_createEntity T s :
  lookup_storage T (createEntity s).2 = lookup_storage T s.
Proof.
  apply lookup_storage_components. unfold createEntity.
  by destruct (last (freeIds s)).
Qed.

(** *** The component operations through [lookup_storage] *)

Lemma hasComponent_lookup T e s :
  hasComponent T e s = oc ← lookup_storage T s; Done (from_option (has e) false oc).
Proof.
  unfold hasComponent, lookup_storage.
  destruct (components s !! T) as [a|]; [|done]. by destruct (downcast T a).
Qed.

Lemma getComponent_lookup T e s :
  getComponent T e s = oc ← lookup_storage T s; Done (oc ≫= get e).
Proof.
  unfold getComponent, lookup_storage.
  destruct (components s !! T) as [a|]; [|done]. by destruct (downcast T a).
Qed.

Lemma removeComponent_lookup T e s :
  removeComponent T e s =
  oc ← lookup_storage T s;
  Done (from_option (λ c, store_through T (remove e c) s) s oc).
Proof.
  unfold removeComponent, lookup_storage.
  destruct (components s !! T) as [a|]; [|done]. by destruct (downcast T a).
Qed.

Lemma addComponent_lookup slot T e (v : arg (C T)) s :
  addComponent slot T e v s =
  oc ← lookup_storage T s;
  Done (store_through T (emplace slot e v (default new_storage oc)) s).
Proof.
  unfold addComponent, lookup_storage.
  destruct (components s !! T) as [a|] eqn:E.
  - by destruct (downcast T a).
  - simpl. by rewrite store_through_register.
Qed.

(** *** The invariants are kept *)

Lemma registry_typed_new : registry_typed (@new_manager K _ _ C).
Proof. intros k a. simpl. by rewrite lookup_empty. Qed.

Lemma manager_ok_new : manager_ok (@new_manager K _ _ C).
Proof. intros k a. simpl. by rewrite lookup_empty. Qed.

Lemma manager_ok_typed s : manager_ok s → registry_typed s.
Proof. intros Hok k a Hk. by destruct (Hok k a Hk). Qed.

Lemma manager_ok_lookup T s c :
  manager_ok s → lookup_storage T s = Done (Some c) → unique_keys c.
Proof.
  intros Hok Hl. apply lookup_storage_Some in Hl.
  by destruct (Hok _ _ Hl) as [_ Hu].
Qed.

Lemma manager_ok_store_through T (c : ComponentStorage (C T)) s :
  manager_ok s → unique_keys c → manager_ok (store_through T c s).
Proof.
  intros Hok Hc k a. simpl. destruct (decide (T = k)) as [->|Hne].
  - rewrite lookup_insert_eq. by intros [= <-].
  - rewrite lookup_insert_ne by done. apply Hok.
Qed.

Lemma manager_ok_createEntity s : manager_ok s → manager_ok (createEntity s).2.
Proof.
  intros Hok k a. unfold createEntity. destruct (last (freeIds s)); apply Hok.
Qed.

Lemma manager_ok_destroyEntity id s : manager_ok s → manager_ok (destroyEntity id s).
Proof.
  intros Hok k a. simpl. rewrite lookup_fmap.
  destruct (components s !! k) as [b|] eqn:E; simpl; [|done].
  intros [= <-]. destruct (Hok _ _ E) as [Ht Hu]. split; [done|].
  by apply unique_keys_remove.
Qed.

Lemma manager_ok_addComponent slot T e (v : arg (C T)) s :
  manager_ok s →
  ∃ s', addComponent slot T e v s = Done s' ∧ manager_ok s'.
Proof.
  intros Hok. rewrite addComponent_lookup.
  destruct (lookup_storage_typed T s (manager_ok_typed s Hok)) as [[_ Hl]|(c & _ & Hl)];
    rewrite Hl; simpl; eexists; (split; [done|]);
    apply manager_ok_store_through; try done; apply unique_keys_emplace.
  - apply unique_keys_new.
  - by eapply manager_ok_lookup.
Qed.

Lemma manager_ok_removeComponent T e s :
  manager_ok s →
  ∃ s', removeComponent T e s = Done s' ∧ manager_ok s'.
Proof.
  intros Hok. rewrite removeComponent_lookup.
  destruct (lookup_storage_typed T s (manager_ok_typed s Hok)) as [[_ Hl]|(c & _ & Hl)];
    rewrite Hl; simpl; eexists; (split; [done|]); [done|].
  apply manager_ok_store_through; [done|].
  apply unique_keys_remove. by eapply manager_ok_lookup.
Qed.

Lemma manager_ok_exec slot (c : call C) s :
  manager_ok s → ∃ s', exec slot c s = Done s' ∧ manager_ok s'.
Proof.
  intros Hok. destruct c as [|id|T e v|T e]; simpl.
  - eexists. split; [done|]. by apply manager_ok_createEntity.
  - eexists. split; [done|]. by apply manager_ok_destroyEntity.
  - by apply manager_ok_addComponent.
  - by apply manager_ok_removeComponent.
Qed.

(** No sequence of calls faults, and the invariant holds after it. *)
Lemma manager_ok_run slot (cs : list (call C)) s :
  manager_ok s → ∃ s', run slot cs s = Done s' ∧ manager_ok s'.
Proof.
  revert s. induction cs as [|c cs IH]; intros s Hok; simpl.
  - eauto.
  - destruct (manager_ok_exec slot c s Hok) as (s1 & -> & Hok1). simpl.
    by apply IH.
Qed.

Lemma reachable_ok slot s : reachable slot s → manager_ok s.
Proof.
  intros [cs Hrun].
  destruct (manager_ok_run slot cs new_manager manager_ok_new) as (s' & Hs' & Hok).
  rewrite Hrun in Hs'. by injection Hs' as <-.
Qed.
End registry_facts.

(** ** Entity lifecycle *)

Section lifecycle_facts.
Context `{Countable K} {C : K → Type} (slot : Entity → list Entity → placement).
Implicit Types (s : EntityManager C) (e id : Entity) (T : K).

Lemma createEntity_recycled s l x :
  freeIds s = l ++ [x] →
  createEntity s = (x, mkManager (nextId s) (entities s ++ [x]) l (components s)).
Proof.
  intros Hf. unfold createEntity. rewrite Hf, last_snoc. by rewrite removelast_last.
Qed.

Lemma wrap_in_range z : INT_MIN ≤ z ≤ INT_MAX → wrap z = z.
Proof.
  unfold wrap, INT_MIN, INT_MAX. intros Hz.
  rewrite Z.mod_small by lia. lia.
Qed.

Lemma createEntity_fresh s :
  freeIds s = [] →
  createEntity s =
  (nextId s, mkManager (wrap (nextId s + 1)) (entities s ++ [nextId s]) [] (components s)).
Proof. intros Hf. unfold createEntity. by rewrite Hf. Qed.

Lemma createEntity_entities s :
  entities (createEntity s).2 = entities s ++ [(createEntity s).1].
Proof. unfold createEntity. by destruct (last (freeIds s)). Qed.

Lemma createEntity_components s : components (createEntity s).2 = components s.
Proof. unfold createEntity. by destruct (last (freeIds s)). Qed.

(** *** The counter and the range of [int] *)

(** Below [INT_MAX] the counter stays or advances by one. *)
Lemma createEntity_nextId s :
  0 ≤ nextId s < INT_MAX →
  nextId s ≤ nextId (createEntity s).2 ≤ nextId s + 1.
Proof.
  intros Hn. unfold createEntity. destruct (last (freeIds s)); simpl; [lia|].
  rewrite wrap_in_range by (unfold INT_MIN, INT_MAX in *; lia). lia.
Qed.

Lemma exec_nextId (c : call C) s s' :
  0 ≤ nextId s < INT_MAX →
  exec slot c s = Done s' → nextId s ≤ nextId s' ≤ nextId s + 1.
Proof.
  intros Hn. destruct c as [|id|T e v|T e]; simpl.
  - intros [= <-]. by apply createEntity_nextId.
  - intros [= <-]. simpl. lia.
  - rewrite addComponent_lookup. intros (o & _ & [= <-])%bind_Done_inv. simpl. lia.
  - rewrite removeComponent_lookup. intros (o & _ & [= <-])%bind_Done_inv.
    destruct o; simpl; lia.
Qed.

(** The counter never goes back and advances by one per call at most, as
    long as it stays in [int]. *)
Lemma run_nextId (cs : list (call C)) s s' :
  0 ≤ nextId s → nextId s + Z.of_nat (length cs) ≤ INT_MAX →
  run slot cs s = Done s' →
  nextId s ≤ nextId s' ≤ nextId s + Z.of_nat (length cs).
Proof.
  revert s. induction cs as [|c cs IH]; intros s Hpos Hlen; simpl.
  - intros [= <-]. lia.
  - cbn [length] in Hlen. intros (s1 & Hc & Hrun)%bind_Done_inv.
    apply exec_nextId in Hc; [|lia]. apply IH in Hrun; lia.
Qed.

(** A sequence of fewer calls than [INT_MAX] never takes [nextId++] out of
    [int]. *)
Lemma run_counter_in_int (cs : list (call C)) s :
  run slot cs new_manager = Done s →
  Z.of_nat (length cs) < INT_MAX →
  0 ≤ nextId s < INT_MAX.
Proof.
  intros Hrun Hlen.
  pose proof (run_nextId cs new_manager s) as Hb. simpl in Hb.
  specialize (Hb ltac:(lia) ltac:(lia) Hrun). lia.
Qed.

(** *** Sound bookkeeping under disciplined use *)

Lemma ids_ok_new : ids_ok (@new_manager K _ _ C).
Proof.
  split; [done|].
  split; simpl; [apply NoDup_nil_2 | intros x Hx; by apply elem_of_nil in Hx].
Qed.

Lemma ids_ok_createEntity s :
  ids_ok s → nextId s < INT_MAX →
  ids_ok (createEntity s).2 ∧ (createEntity s).1 ∉ entities s.
Proof.
  intros (Hpos & Hnd & Hrange) Hmax.
  assert (Hw : wrap (nextId s + 1) = nextId s + 1).
  { apply wrap_in_range. unfold INT_MIN, INT_MAX in *. lia. }
  destruct (last (freeIds s)) as [x|] eqn:E.
  - apply last_Some in E as [l Hl]. rewrite (createEntity_recycled s l x Hl). simpl.
    rewrite Hl in Hnd, Hrange.
    assert (Hperm : (entities s ++ [x]) ++ l ≡ₚ entities s ++ l ++ [x]).
    { rewrite <- !(assoc_L (++)). f_equiv. apply Permutation_app_comm. }
    split; [split; [done|split]; simpl|].
    + by rewrite Hperm.
    + intros y Hy. apply Hrange. by rewrite <- Hperm.
    + apply NoDup_app in Hnd as (_ & Hdis & _). intros Hin.
      apply (Hdis x Hin). apply elem_of_app. right. by apply list_elem_of_singleton.
  - apply last_None in E. rewrite (createEntity_fresh s E). simpl. rewrite Hw.
    rewrite E, app_nil_r in Hnd, Hrange.
    assert (Hfresh : nextId s ∉ entities s).
    { intros Hin. apply Hrange in Hin. lia. }
    split; [split; [simpl; lia|split]; simpl|done].
    + rewrite app_nil_r. apply NoDup_app. split; [done|]. split.
      * intros y Hy ->%list_elem_of_singleton. done.
      * apply NoDup_singleton.
    + intros y. rewrite app_nil_r, elem_of_app, list_elem_of_singleton.
      intros [Hy%Hrange| ->]; lia.
Qed.

Lemma ids_ok_destroyEntity id s :
  ids_ok s → id ∈ entities s → ids_ok (destroyEntity id s).
Proof.
  intros (Hpos & Hnd & Hrange) Hlive. split; [done|]. split; simpl.
  - apply NoDup_app in Hnd as (Hl & Hdis & Hf).
    rewrite (assoc_L (++)). apply NoDup_app. split; [|split].
    + apply NoDup_app. split; [by apply NoDup_filter|]. split; [|done].
      intros y [_ Hy]%list_elem_of_filter. by apply Hdis.
    + intros y Hy ->%list_elem_of_singleton.
      apply elem_of_app in Hy as [[Hne _]%list_elem_of_filter|Hy]; [done|].
      by apply (Hdis id).
    + apply NoDup_singleton.
  - intros y Hy. apply Hrange.
    rewrite !elem_of_app in Hy. rewrite elem_of_app.
    destruct Hy as [[_ Hy]%list_elem_of_filter|[Hy| ->%list_elem_of_singleton]]; auto.
Qed.

Lemma ids_ok_components s s' :
  nextId s' = nextId s → entities s' = entities s → freeIds s' = freeIds s →
  ids_ok s → ids_ok s'.
Proof. unfold ids_ok. by intros -> -> ->. Qed.

Lemma ids_ok_exec (c : call C) s s' :
  ids_ok s → nextId s < INT_MAX →
  destroys_live slot [c] s → exec slot c s = Done s' → ids_ok s'.
Proof.
  intros Hok Hmax [Hlive _]. destruct c as [|id|T e v|T e]; simpl.
  - intros [= <-]. by apply ids_ok_createEntity.
  - intros [= <-]. by apply ids_ok_destroyEntity.
  - rewrite addComponent_lookup. intros (o & _ & [= <-])%bind_Done_inv.
    by apply (ids_ok_components s).
  - rewrite removeComponent_lookup. intros (o & _ & [= <-])%bind_Done_inv.
    destruct o; [by apply (ids_ok_components s) | done].
Qed.

(** The bookkeeping stays sound along calls that give [destroyEntity] live
    ids only and keep the counter in [int]. *)
Lemma ids_ok_run (cs : list (call C)) s s' :
  ids_ok s → nextId s + Z.of_nat (length cs) ≤ INT_MAX →
  destroys_live slot cs s → run slot cs s = Done s' →
  ids_ok s'.
Proof.
  revert s. induction cs as [|c cs IH]; intros s Hok Hlen Hd; simpl.
  - by intros [= <-].
  - cbn [length] in Hlen. intros (s1 & Hc & Hrun)%bind_Done_inv. destruct Hd as [Hc1 Hd].
    rewrite Hc in Hd. pose proof Hok as (Hpos & _).
    pose proof (exec_nextId c s s1 ltac:(lia) Hc) as Hstep.
    apply (IH s1); [|lia|done|done].
    apply (ids_ok_exec c s); [done|lia| |done]. simpl. by rewrite Hc.
Qed.

(** As long as [destroyEntity] is given live ids only and the counter
    stays in [int], the live entities have distinct ids. *)
Lemma disciplined_ids_unique (cs : list (call C)) s s' :
  ids_ok s → nextId s + Z.of_nat (length cs) ≤ INT_MAX →
  destroys_live slot cs s → run slot cs s = Done s' →
  ids_ok s' ∧ NoDup (entities s').
Proof.
  intros Hok Hlen Hd Hrun.
  pose proof (ids_ok_run cs s s' Hok Hlen Hd Hrun) as Hok'.
  split; [done|]. destruct Hok' as (_ & Hnd & _).
  by apply NoDup_app in Hnd as (? & _ & _).
Qed.

(** *** The claims on the lifecycle *)

(** C1, where the code departs from it: [destroyEntity] appends its argument
    to [freeIds] whether or not the id is live, so an id destroyed twice is
    on the free list twice and [createEntity] hands it out twice.  After
    create, destroy 0, destroy 0, create, create the three ids issued are
    0, 0 and 0, and the live list is [0; 0]: the last [createEntity]
    returned an id that was live. *)
Theorem destroy_twice_reissues_live_id :
  let cs : list (call C) :=
    [CreateEntity; DestroyEntity 0; DestroyEntity 0; CreateEntity; CreateEntity] in
  issued slot cs new_manager = [0; 0; 0] ∧
  ∃ s4 s5, run slot (take 4 cs) new_manager = Done s4 ∧
           run slot cs new_manager = Done s5 ∧
           entities s4 = [0] ∧
           (createEntity s4).1 ∈ entities s4 ∧
           entities s5 = [0; 0] ∧
           ¬ NoDup (entities s5).
Proof.
  simpl. split; [done|]. do 2 eexists. split; [done|]. split; [done|].
  simpl. split; [done|]. split; [apply list_elem_of_singleton; done|].
  split; [done|]. intros Hnd. apply NoDup_cons in Hnd as [Hnd _].
  apply Hnd. by left.
Qed.

(** C3, as amended: [createEntity] always returns and appends the id it
    returns to the live list.  It pops the id pushed last on the free list
    when there is one, so that two ids destroyed in turn come back in the
    opposite order; otherwise it returns the counter and, below [INT_MAX],
    advances it by one.  Along calls that give [destroyEntity] live ids
    only, fewer than [INT_MAX] of them, the bookkeeping of ids is sound and
    the counter below [INT_MAX]; the id returned then is not live, and an
    id taken from the counter is above every live and every free id.
    After creating 0, 1, 2 and destroying 1 the next id is 1, and only
    then 3. *)
Theorem createEntity_recycles_lifo :
  (∀ s, entities (createEntity s).2 = entities s ++ [(createEntity s).1] ∧
        components (createEntity s).2 = components s) ∧
  (∀ s l x, freeIds s = l ++ [x] →
        (createEntity s).1 = x ∧
        freeIds (createEntity s).2 = l ∧
        nextId (createEntity s).2 = nextId s) ∧
  (∀ s a b,
        let s2 := destroyEntity b (destroyEntity a s) in
        (createEntity s2).1 = b ∧ (createEntity (createEntity s2).2).1 = a) ∧
  (∀ s, freeIds s = [] →
        (createEntity s).1 = nextId s ∧
        freeIds (createEntity s).2 = [] ∧
        (0 ≤ nextId s < INT_MAX → nextId (createEntity s).2 = nextId s + 1)) ∧
  (∀ (cs : list (call C)) s,
        destroys_live slot cs new_manager → Z.of_nat (length cs) < INT_MAX →
        run slot cs new_manager = Done s →
        ids_ok s ∧ nextId s < INT_MAX) ∧
  (∀ s, ids_ok s → nextId s < INT_MAX →
        ((createEntity s).1 ∉ entities s) ∧
        ids_ok (createEntity s).2 ∧
        (freeIds s = [] → ∀ j, j ∈ entities s → j < (createEntity s).1) ∧
        (∀ (cs : list (call C)) s',
           nextId (createEntity s).2 + Z.of_nat (length cs) ≤ INT_MAX →
           run slot cs (createEntity s).2 = Done s' →
           freeIds s = [] → (createEntity s).1 < nextId s')) ∧
  issued slot [CreateEntity; CreateEntity; CreateEntity; DestroyEntity 1;
               CreateEntity; CreateEntity] (@new_manager K _ _ C) = [0; 1; 2; 1; 3].
Proof.
  split; [|split; [|split; [|split; [|split; [|split]]]]].
  - intros s. split; [apply createEntity_entities | apply createEntity_components].
  - intros s l x Hf. by rewrite (createEntity_recycled s l x Hf).
  - intros s a b s2.
    assert (Hf : freeIds s2 = (freeIds s ++ [a]) ++ [b]) by done.
    rewrite (createEntity_recycled s2 _ b Hf). simpl. split; [done|].
    by erewrite createEntity_recycled.
  - intros s Hf. rewrite (createEntity_fresh s Hf). simpl.
    do 2 (split; [done|]). intros Hn. apply wrap_in_range.
    unfold INT_MIN, INT_MAX in *. lia.
  - intros cs s Hd Hlen Hrun. split.
    + apply (ids_ok_run cs new_manager s); [apply ids_ok_new|simpl; lia|done|done].
    + pose proof (run_nextId cs new_manager s) as Hb. simpl in Hb.
      specialize (Hb ltac:(lia) ltac:(lia) Hrun). lia.
  - intros s Hok Hmax. destruct (ids_ok_createEntity s Hok Hmax) as [Hok' Hnew].
    split; [done|]. split; [done|]. split.
    + intros Hf j Hj. rewrite (createEntity_fresh s Hf). simpl.
      destruct Hok as (_ & _ & Hrange). apply Hrange, elem_of_app. by left.
    + intros cs s' Hlen Hrun Hf. destruct Hok' as (Hpos' & _).
      pose proof (run_nextId cs _ s' Hpos' Hlen Hrun) as Hb.
      rewrite (createEntity_fresh s Hf) in Hb |- *. simpl in Hb |- *.
      destruct Hok as (Hpos & _).
      rewrite wrap_in_range in Hb by (unfold INT_MIN, INT_MAX in *; lia). lia.
  - done.
Qed.
End lifecycle_facts.

(** ** Traversals *)

Section traversal_facts.
Context `{Countable K} {C : K → Type}.
Implicit Types (s : EntityManager C) (e id : Entity) (T : K).

Lemma foldl_record {A} (l acc : list (Entity * A)) :
  foldl (λ log kv, log ++ [(kv.1, kv.2)]) acc l = acc ++ l.
Proof.
  revert acc. induction l as [|[k v] l IH]; intros acc; simpl.
  - by rewrite app_nil_r.
  - rewrite IH. by rewrite <- (assoc_L (++)).
Qed.

Lemma visited_lookup T s :
  visited T s = oc ← lookup_storage T s; Done (from_option all [] oc).
Proof.
  unfold visited, forEach_const. destruct (lookup_storage T s) as [[c|]|f]; simpl; [|done..].
  by rewrite foldl_record.
Qed.

Lemma traversed_Some T s c : lookup_storage T s = Done (Some c) → traversed T s = Done c.
Proof. unfold traversed. by intros ->. Qed.

Lemma nodes_Some T s c : lookup_storage T s = Done (Some c) → nodes T s = length (all c).
Proof. unfold nodes. by intros ->. Qed.

(** Without a storage for [T] the callable is never called. *)
Lemma forEach_no_storage {U} T fuel (func : visitor C U T) s (u : U) :
  lookup_storage T s = Done None → forEach T fuel func (s, u) = Done (s, u).
Proof. unfold forEach. simpl. by intros ->. Qed.

(** Nor is it when the storage holds no component. *)
Lemma forEach_no_component {U} T fuel (func : visitor C U T) s (u : U) c :
  lookup_storage T s = Done (Some c) → all c = [] → forEach T fuel func (s, u) = Done (s, u).
Proof.
  intros Hl Hall. unfold forEach. cbn [fst]. rewrite Hl. bind_done. rewrite Hall.
  by destruct fuel.
Qed.

(** *** The iterator *)

Lemma after_absent k l : k ∉ l → after k l = [].
Proof.
  induction l as [|j l IH]; [done|]. rewrite not_elem_of_cons. intros [Hne Hl].
  cbn [after]. rewrite decide_False by done. by apply IH.
Qed.

(** In a list without duplicates, what follows [k] is the rest of the
    list. *)
Lemma after_middle k pre rest : k ∉ pre → after k (pre ++ k :: rest) = rest.
Proof.
  induction pre as [|j pre IH]; cbn [after app].
  - intros _. by rewrite decide_True.
  - rewrite not_elem_of_cons. intros [Hne Hpre]. rewrite decide_False by done. by apply IH.
Qed.

Lemma after_filter k (P : Entity → Prop) `{∀ j, Decision (P j)} l :
  P k → after k (filter P l) = filter P (after k l).
Proof.
  intros Hk. induction l as [|j l IH]; [done|]. rewrite filter_cons. cbn [after].
  destruct (decide (P j)) as [Hj|Hj].
  - cbn [after]. by destruct (decide (j = k)).
  - rewrite decide_False by (by intros ->). done.
Qed.

Lemma iterator_valid_same {A} k (c c' : ComponentStorage A) :
  rehashes c' = rehashes c → erased c' = erased c → iterator_valid k c c' = true.
Proof.
  intros Hr He. apply bool_decide_eq_true. unfold erasures. by rewrite Hr, He.
Qed.

(** The iterator to a node that [remove] has erased is not valid. *)
Lemma iterator_valid_remove {A} k (c c' : ComponentStorage A) :
  erased c' = erased c → has k c' = true → iterator_valid k c (remove k c') = false.
Proof.
  intros He Hh. apply bool_decide_eq_false. rewrite (remove_present k c' Hh).
  unfold erasures. cbn [erased]. rewrite filter_cons_True, He by done. cbn [length].
  intros [_ Heq]. lia.
Qed.

(** [remove] leaves the iterators to the other nodes valid. *)
Lemma iterator_valid_remove_other {A} k j (c : ComponentStorage A) :
  j ≠ k → iterator_valid k c (remove j c) = true.
Proof.
  intros Hne. apply bool_decide_eq_true. unfold remove.
  destruct (has j c); [|done]. unfold erasures. cbn [rehashes erased].
  by rewrite filter_cons_False by done.
Qed.

(** *** Traversals that leave the nodes in place *)

(** A callable that, as long as [J] holds of the pairs yet to visit and of
    the state, returns [step] of the state and keeps the keys of the
    storage in place, without rehash or erasure, and the pairs yet to
    visit as they are: it is called once on each pair, in order, and
    [length l] steps are enough. *)
Lemma forEach_from_stable {U} T (func : visitor C U T)
    (step : Entity → C T → EntityManager C * U → EntityManager C * U)
    (J : list (Entity * C T) → EntityManager C * U → Prop)
    (c0 : ComponentStorage (C T)) :
  unique_keys c0 →
  (∀ l st, J l st →
     ∃ c, lookup_storage T st.1 = Done (Some c) ∧
          keys (all c) = keys (all c0) ∧ rehashes c = rehashes c0 ∧ erased c = erased c0 ∧
          ∀ k v, (k, v) ∈ l → get k c = Some v) →
  (∀ k v l st, J ((k, v) :: l) st → func k v st = Done (step k v st) ∧ J l (step k v st)) →
  ∀ l pre fuel st,
    keys (all c0) = pre ++ keys l → (length l ≤ fuel)%nat → J l st →
    forEach_from T fuel func (keys l) st =
    Done (foldl (λ st kv, step kv.1 kv.2 st) st l).
Proof.
  intros Hu Hshape Hstep l.
  induction l as [|[k v] l IH]; intros pre fuel st Hks Hfuel HJ; [by destruct fuel|].
  destruct fuel as [|fuel]; [cbn [length] in Hfuel; lia|].
  change (keys ((k, v) :: l)) with (k :: keys l) in *.
  destruct (Hshape _ _ HJ) as (c & Hl & Hkc & Hrc & Hec & Hget).
  destruct (Hstep k v l st HJ) as [Hf HJ'].
  destruct (Hshape _ _ HJ') as (c' & Hl' & Hkc' & Hrc' & Hec' & _).
  cbn [forEach_from]. rewrite (traversed_Some T _ c Hl). bind_done.
  rewrite (Hget k v) by left. rewrite Hf. bind_done.
  rewrite (traversed_Some T _ c' Hl'). bind_done.
  rewrite iterator_valid_same by congruence.
  assert (Hpre : k ∉ pre).
  { unfold unique_keys in Hu. unfold all in Hks. rewrite Hks in Hu.
    apply NoDup_app in Hu as (_ & Hdis & _). intros Hin. apply (Hdis k Hin). by left. }
  rewrite Hkc', Hks, after_middle by done.
  cbn [foldl fst snd]. apply (IH (pre ++ [k])); [|cbn [length] in Hfuel; lia|done].
  by rewrite <- (assoc_L (++)).
Qed.

(** A callable that leaves the manager alone is called once on each pair of
    the storage, in order: the two overloads of [forEach] agree on it. *)
Lemma forEach_readonly {U} T fuel (g : Entity → C T → U → U) s (u : U) :
  manager_ok s →
  (nodes T s ≤ fuel)%nat →
  forEach T fuel (λ k v st, Done (st.1, g k v st.2)) (s, u) =
  u' ← forEach_const T g s u; Done (s, u').
Proof.
  intros Hok Hfuel. unfold forEach, forEach_const. cbn [fst].
  destruct (lookup_storage T s) as [[c|]|f] eqn:E; [|done..]. repeat bind_done.
  rewrite (nodes_Some T s c E) in Hfuel.
  pose proof (manager_ok_lookup T s c Hok E) as Hu.
  rewrite (forEach_from_stable T _ (λ k v st, (st.1, g k v st.2))
             (λ l st, st.1 = s ∧ ∀ kv, kv ∈ l → kv ∈ all c) c Hu) with (pre := []).
  - f_equal. generalize (all c). intros l. revert u.
    induction l as [|[k v] l IH]; intros u; [done|]. cbn [foldl fst snd]. apply IH.
  - intros l st [-> Hin]. exists c. do 4 (split; [done|]).
    intros k v Hkv. apply elem_find_unique; [done|]. by apply Hin.
  - intros k v l st [Hs Hin]. split; [done|]. split; [done|].
    intros kv Hkv. apply Hin. by right.
  - done.
  - done.
  - done.
Qed.

(** A callable that destroys the entity it is called on: the increment
    after its first call is that of an erased node. *)
Lemma forEach_destroy_current {U} T fuel s (u : U) c :
  lookup_storage T s = Done (Some c) →
  all c ≠ [] →
  forEach T (S fuel) (λ e _ st, Done (destroyEntity e st.1, st.2)) (s, u)
  = Fault InvalidIterator.
Proof.
  intros Hl Hne. unfold forEach. cbn [fst]. rewrite Hl. bind_done.
  unfold all in *. destruct (data c) as [|[k v] rest] eqn:Hd; [done|].
  cbn [keys fmap list_fmap fst forEach_from].
  rewrite (traversed_Some T s c Hl). bind_done.
  assert (Hg : get k c = Some v).
  { unfold get. rewrite Hd. cbn [find]. by rewrite decide_True. }
  rewrite Hg. bind_done. cbn [fst].
  assert (Hl' : lookup_storage T (destroyEntity k s) = Done (Some (remove k c))).
  { by rewrite lookup_destroyEntity, Hl. }
  rewrite (traversed_Some T _ _ Hl'). bind_done.
  by rewrite iterator_valid_remove by (done || by apply (get_Some_has k c v)).
Qed.
End traversal_facts.

(** ** Overwriting *)

Section overwrite_facts.
Context {A : Type} (slot : Entity → list Entity → placement).
Implicit Types (e : Entity) (v : A) (l : list (Entity * A)) (c : ComponentStorage A).

Lemma assign_assign e v1 v2 l : assign e v2 (assign e v1 l) = assign e v2 l.
Proof.
  induction l as [|[k w] l IH]; [done|]. cbn [assign].
  destruct (decide (k = e)) as [->|Hk]; cbn [assign].
  - by rewrite decide_True.
  - rewrite decide_False by done. by rewrite IH.
Qed.

(** The second of two [emplace] for the same entity takes the path of the
    key that is there: what it leaves is built from its arguments at their
    second use. *)
Lemma get_emplace_emplace e (a1 a2 : arg A) c :
  unique_keys c →
  get e (emplace slot e a2 (emplace slot e a1 c)) = Some (reused a2).
Proof.
  intros Hu. rewrite get_emplace by by apply unique_keys_emplace.
  by rewrite decide_True, has_emplace, decide_True.
Qed.

Lemma all_emplace_new e (a : arg A) :
  all (emplace slot e a (@new_storage A)) = [(e, fresh a)].
Proof.
  unfold emplace, new_storage, all. cbn [data find keys fmap list_fmap].
  destruct (slot e []) as [n|ns]; cbn; [by rewrite take_nil, drop_nil|].
  by rewrite take_nil, drop_nil.
Qed.
End overwrite_facts.

(** ** Components *)

Section component_facts.
Context `{Countable K} {C : K → Type} (slot : Entity → list Entity → placement).
Implicit Types (s : EntityManager C) (e id : Entity) (T : K).

(** What [addComponent] leaves in the storage of its type. *)
Lemma addComponent_stored T e (a : arg (C T)) s :
  registry_typed s →
  ∃ oc, lookup_storage T s = Done oc ∧
        addComponent slot T e a s =
          Done (store_through T (emplace slot e a (default new_storage oc)) s).
Proof.
  intros Hty. rewrite addComponent_lookup.
  destruct (lookup_storage_typed T s Hty) as [[_ Hl]|(c & _ & Hl)];
    rewrite Hl; eexists; split; done.
Qed.

Lemma store_through_twice T (c c' : ComponentStorage (C T)) s :
  store_through T c' (store_through T c s) = store_through T c' s.
Proof. unfold store_through. simpl. by rewrite insert_insert_eq. Qed.

Lemma unique_keys_default T s oc :
  manager_ok s → lookup_storage T s = Done oc →
  unique_keys (default new_storage oc).
Proof.
  intros Hok Hl. destruct oc as [c|]; simpl.
  - by apply (manager_ok_lookup T s c).
  - apply unique_keys_new.
Qed.

(** Two [addComponent] of the same type on the same entity: the storage
    pairs the entity with one component, the one [emplace] has built from
    the arguments of the second call at their second use. *)
Lemma addComponent_twice T e (a1 a2 : arg (C T)) s :
  manager_ok s →
  ∃ s2 c, (addComponent slot T e a1 s ≫= addComponent slot T e a2) = Done s2 ∧
          lookup_storage T s2 = Done (Some c) ∧
          unique_keys c ∧
          getComponent T e s2 = Done (Some (reused a2)) ∧
          ∀ v, (e, v) ∈ all c ↔ v = reused a2.
Proof.
  intros Hok. pose proof (manager_ok_typed s Hok) as Hty.
  destruct (addComponent_stored T e a1 s Hty) as (oc & Hl & Hadd1).
  pose proof (unique_keys_default T s oc Hok Hl) as Hu0.
  set (c0 := default new_storage oc) in *.
  set (c2 := emplace slot e a2 (emplace slot e a1 c0)).
  assert (Hu : unique_keys c2) by (do 2 apply unique_keys_emplace; done).
  assert (Hg : get e c2 = Some (reused a2)) by by apply get_emplace_emplace.
  exists (store_through T c2 s), c2. split.
  { rewrite Hadd1. bind_done. rewrite addComponent_lookup, lookup_store_through.
    bind_done. cbn [default]. by rewrite store_through_twice. }
  split; [apply lookup_store_through|]. split; [done|]. split.
  - rewrite getComponent_lookup, lookup_store_through. bind_done. cbn. by rewrite Hg.
  - intros v. rewrite (elem_all_get e v _ Hu), Hg.
    split; [by intros [= ->] | by intros ->].
Qed.

(** C9: for distinct component types [A] and [B], [addComponent<A>] leaves
    the storage registered for [B] as it was, so that [hasComponent<B>],
    [getComponent<B>] and the pairs [forEach<B>] visits are the same before
    and after, for every entity. *)
Theorem addComponent_frame (A B : K) e (v : arg (C A)) s s' :
  A ≠ B →
  addComponent slot A e v s = Done s' →
  components s' !! B = components s !! B ∧
  lookup_storage B s' = lookup_storage B s ∧
  visited B s' = visited B s ∧
  ∀ e', hasComponent B e' s' = hasComponent B e' s ∧
        getComponent B e' s' = getComponent B e' s.
Proof.
  intros Hne. rewrite addComponent_lookup.
  intros (oc & _ & [= <-])%bind_Done_inv.
  assert (Hl : lookup_storage B (store_through A (emplace slot e v (default new_storage oc)) s)
               = lookup_storage B s) by by apply lookup_store_through_ne.
  split; [by apply components_store_through_ne|]. split; [done|].
  split; [by rewrite !visited_lookup, Hl|].
  intros e'. by rewrite !hasComponent_lookup, !getComponent_lookup, Hl.
Qed.

(** The component operations never look at the live list.  For any id at
    all, live or not, [addComponent] returns and stores a component for
    it, the one built from the arguments when the entity had none of the
    type, and changes neither the live list, the free list nor the
    counter; afterwards [hasComponent] is true, [getComponent] gives the
    component stored and [forEach] visits the pair.  What the operations
    answer depends on the storages alone. *)
Lemma components_ignore_liveness T e (a : arg (C T)) s :
  manager_ok s →
  (∃ s' v, addComponent slot T e a s = Done s' ∧
         entities s' = entities s ∧ freeIds s' = freeIds s ∧ nextId s' = nextId s ∧
         hasComponent T e s' = Done true ∧
         getComponent T e s' = Done (Some v) ∧
         (∃ l, visited T s' = Done l ∧ (e, v) ∈ l) ∧
         (hasComponent T e s = Done false → v = fresh a) ∧
         (hasComponent T e s = Done true → v = reused a)) ∧
  (∀ s2, components s2 = components s →
         hasComponent T e s2 = hasComponent T e s ∧
         getComponent T e s2 = getComponent T e s ∧
         visited T s2 = visited T s ∧
         (s2' ← addComponent slot T e a s2; Done (components s2')) =
           (s' ← addComponent slot T e a s; Done (components s')) ∧
         (s2' ← removeComponent T e s2; Done (components s2')) =
           (s' ← removeComponent T e s; Done (components s'))).
Proof.
  intros Hok. pose proof (manager_ok_typed s Hok) as Hty. split.
  - destruct (addComponent_stored T e a s Hty) as (oc & Hl & ->).
    pose proof (unique_keys_default T s oc Hok Hl) as Hu.
    set (c0 := default new_storage oc) in *.
    exists (store_through T (emplace slot e a c0) s),
           (if has e c0 then reused a else fresh a).
    split; [done|]. do 3 (split; [done|]).
    assert (Hg : get e (emplace slot e a c0) = Some (if has e c0 then reused a else fresh a)).
    { by rewrite get_emplace, decide_True. }
    rewrite !hasComponent_lookup, getComponent_lookup, visited_lookup, lookup_store_through, Hl.
    repeat bind_done. cbn [from_option mbind option_bind].
    rewrite has_emplace, decide_True by done. split; [done|].
    split; [by rewrite Hg|]. split.
    { eexists. split; [done|]. by apply find_Some_elem. }
    assert (Hh : from_option (has e) false oc = has e c0).
    { subst c0. by destruct oc. }
    rewrite Hh. split; intros [= ->]; done.
  - intros s2 Hc.
    pose proof (lookup_storage_components T s2 s Hc) as Hl.
    rewrite !hasComponent_lookup, !getComponent_lookup, !visited_lookup,
      !addComponent_lookup, !removeComponent_lookup, Hl.
    do 3 (split; [done|]).
    destruct (lookup_storage T s) as [oc|f]; simpl; [|done].
    unfold store_through. simpl. rewrite Hc. split; [done|].
    destruct oc; simpl; [done | by rewrite Hc].
Qed.

Lemma foldl_agree {U A} (g g' : Entity → A → U → U) (l : list (Entity * A)) (u : U) :
  (∀ k v u, (k, v) ∈ l → g k v u = g' k v u) →
  foldl (λ acc kv, g kv.1 kv.2 acc) u l = foldl (λ acc kv, g' kv.1 kv.2 acc) u l.
Proof.
  revert u. induction l as [|[k v] l IH]; intros u Hext; [done|]. cbn [foldl fst snd].
  rewrite (Hext k v u) by left. apply IH. intros k' v' u' Hin. apply Hext. by right.
Qed.

(** C4: [destroyEntity] calls [remove] on every storage of the registry,
    whether or not it holds a component of the entity; afterwards no storage
    has one.  For every component type, [hasComponent] is false,
    [getComponent] is [nullptr], the pairs [forEach] visits do not include
    the entity, and what a [forEach] with a callable that only reads the
    manager computes does not depend on what the callable would do on that
    entity. *)
Theorem destroyEntity_cascades T e s :
  registry_typed s →
  (∀ k a, components s !! k = Some a →
          components (destroyEntity e s) !! k = Some (any_remove e a) ∧
          any_has e (any_remove e a) = false) ∧
  hasComponent T e (destroyEntity e s) = Done false ∧
  getComponent T e (destroyEntity e s) = Done None ∧
  (∃ l, visited T (destroyEntity e s) = Done l ∧ e ∉ keys l) ∧
  ∀ U (g g' : Entity → C T → U → U) (u : U) fuel,
    manager_ok s →
    (nodes T (destroyEntity e s) ≤ fuel)%nat →
    (∀ k v u, k ≠ e → g k v u = g' k v u) →
    forEach T fuel (λ k v st, Done (st.1, g k v st.2)) (destroyEntity e s, u) =
    forEach T fuel (λ k v st, Done (st.1, g' k v st.2)) (destroyEntity e s, u).
Proof.
  intros Hty.
  assert (Hall : ∀ k a, components s !! k = Some a →
            components (destroyEntity e s) !! k = Some (any_remove e a) ∧
            any_has e (any_remove e a) = false).
  { intros k b Hk. simpl. rewrite lookup_fmap, Hk. split; [done|].
    unfold any_has, any_remove. cbn [store]. by rewrite has_remove, decide_True. }
  split; [exact Hall|].
  assert (Hro : ∀ U (g g' : Entity → C T → U → U) (u : U) fuel,
            manager_ok s → (nodes T (destroyEntity e s) ≤ fuel)%nat →
            (∀ l, visited T (destroyEntity e s) = Done l → e ∉ keys l) →
            (∀ k v u, k ≠ e → g k v u = g' k v u) →
            forEach T fuel (λ k v st, Done (st.1, g k v st.2)) (destroyEntity e s, u) =
            forEach T fuel (λ k v st, Done (st.1, g' k v st.2)) (destroyEntity e s, u)).
  { intros U g g' u fuel Hok Hfuel Hvis Hext.
    pose proof (manager_ok_destroyEntity e s Hok) as Hok'.
    rewrite !forEach_readonly by done. unfold forEach_const.
    rewrite visited_lookup in Hvis.
    destruct (lookup_storage T (destroyEntity e s)) as [[c|]|f]; [|done..].
    repeat bind_done. do 2 f_equal. apply foldl_agree. intros k v u0 Hin.
    apply Hext. intros ->. apply (Hvis (all c)); [done|].
    by apply (list_elem_of_fmap_2 fst) in Hin. }
  destruct (lookup_storage_typed T s Hty) as [[_ Hl]|(c & _ & Hl)].
  - assert (Hl' : lookup_storage T (destroyEntity e s) = Done None).
    { by rewrite lookup_destroyEntity, Hl. }
    split; [by rewrite hasComponent_lookup, Hl'|].
    split; [by rewrite getComponent_lookup, Hl'|].
    assert (Hvis : ∀ l, visited T (destroyEntity e s) = Done l → e ∉ keys l).
    { intros l. rewrite visited_lookup, Hl'. intros [= <-]. apply not_elem_of_nil. }
    split.
    + exists []. split; [by rewrite visited_lookup, Hl' | apply not_elem_of_nil].
    + intros U g g' u fuel Hok Hfuel Hext. by apply Hro.
  - assert (Hl' : lookup_storage T (destroyEntity e s) = Done (Some (remove e c))).
    { by rewrite lookup_destroyEntity, Hl. }
    assert (Hgone : e ∉ keys (data (remove e c))).
    { apply has_false. by rewrite has_remove, decide_True. }
    split; [|split; [|split]].
    + rewrite hasComponent_lookup, Hl'. simpl. by rewrite has_remove, decide_True.
    + rewrite getComponent_lookup, Hl'. simpl. by rewrite get_remove, decide_True.
    + rewrite visited_lookup, Hl'. simpl. eauto.
    + intros U g g' u fuel Hok Hfuel Hext. apply Hro; [done..| |done].
      intros l. rewrite visited_lookup, Hl'. by intros [= <-].
Qed.

(** *** The registry *)



(** *** Entities without components *)

Lemma filter_ne_absent (l : list Entity) e : e ∉ l → filter (λ x, x ≠ e) l = l.
Proof.
  induction l as [|y l IH]; [done|]. rewrite not_elem_of_cons. intros [Hne Hl].
  rewrite filter_cons_True by done. by rewrite IH.
Qed.

Lemma has_emplace_inv {A} e e0 (v : arg A) (c : ComponentStorage A) :
  has e (emplace slot e0 v c) = true → e = e0 ∨ has e c = true.
Proof.
  rewrite has_emplace. destruct (decide (e0 = e)) as [->|]; auto.
Qed.

Lemma has_remove_inv {A} e e0 (c : ComponentStorage A) :
  has e (remove e0 c) = true → e ≠ e0 ∧ has e c = true.
Proof.
  rewrite has_remove. destruct (decide (e0 = e)) as [->|]; [done|auto].
Qed.

Lemma components_live_new : components_live (@new_manager K _ _ C).
Proof.
  intros T c e Hl. by rewrite (lookup_storage_None T new_manager) in Hl.
Qed.

(** The calls keep components on live entities, provided [addComponent] is
    given live entities. *)
Lemma components_live_exec (c : call C) s s' :
  components_live s →
  match c with AddComponent _ e _ => e ∈ entities s | _ => True end →
  exec slot c s = Done s' →
  components_live s'.
Proof.
  intros Hlive Hadd. destruct c as [|id|T0 e0 v|T0 e0]; simpl.
  - intros [= <-] T c e. rewrite lookup_createEntity, createEntity_entities.
    intros Hl He. apply elem_of_app. left. by apply (Hlive T c e).
  - intros [= <-] T c e. rewrite lookup_destroyEntity.
    intros (oc & Hl & [= Hc])%bind_Done_inv. destruct oc as [c0|]; [|done].
    injection Hc as <-. intros [Hne He]%has_remove_inv. simpl.
    apply list_elem_of_filter. split; [done|]. by apply (Hlive T c0 e).
  - rewrite addComponent_lookup. intros (oc & Hl0 & [= <-])%bind_Done_inv T c e.
    destruct (decide (T0 = T)) as [<-|Hne].
    + rewrite lookup_store_through. intros [= <-] [->|He]%has_emplace_inv; [done|].
      destruct oc as [c0|]; [|done]. by apply (Hlive T0 c0 e).
    + rewrite lookup_store_through_ne by done. apply Hlive.
  - rewrite removeComponent_lookup. intros (oc & Hl0 & [= <-])%bind_Done_inv T c e.
    destruct oc as [c0|]; simpl; [|apply Hlive].
    destruct (decide (T0 = T)) as [<-|Hne].
    + rewrite lookup_store_through. intros [= <-] [_ He]%has_remove_inv.
      by apply (Hlive T0 c0 e).
    + rewrite lookup_store_through_ne by done. apply Hlive.
Qed.

Lemma store_through_same T (c : ComponentStorage (C T)) s :
  lookup_storage T s = Done (Some c) → store_through T c s = s.
Proof.
  intros Hl%lookup_storage_Some. unfold store_through.
  rewrite insert_id by done. by destruct s.
Qed.

(** When components were attached to live entities only, an id that is
    not live has no component. *)
Lemma components_live_absent e s :
  components_live s → e ∉ entities s →
  ∀ T c, lookup_storage T s = Done (Some c) → has e c = false.
Proof.
  intros Hlive Hdead T c Hl. destruct (has e c) eqn:E; [|done].
  exfalso. apply Hdead. by apply (Hlive T c e).
Qed.

(** C6, as it holds: for an id that is not live and of which no storage
    holds a component, [hasComponent] is false, [getComponent] is
    [nullptr], [removeComponent] changes nothing, and [destroyEntity]
    leaves the live list and the storages as they are; none of them
    faults.  [forEach] on a type without a storage, or whose storage is
    empty, returns the manager and the state of the callable unchanged
    whatever the callable is: it is not called. *)
Theorem absent_entity_is_tolerated T e s :
  manager_ok s →
  e ∉ entities s →
  (∀ T' c, lookup_storage T' s = Done (Some c) → has e c = false) →
  hasComponent T e s = Done false ∧
  getComponent T e s = Done None ∧
  removeComponent T e s = Done s ∧
  entities (destroyEntity e s) = entities s ∧
  components (destroyEntity e s) = components s ∧
  manager_ok (destroyEntity e s) ∧
  (∀ U fuel (func : visitor C U T) (u : U),
     lookup_storage T s = Done None → forEach T fuel func (s, u) = Done (s, u)) ∧
  (∀ U fuel (func : visitor C U T) (u : U) c,
     lookup_storage T s = Done (Some c) → all c = [] →
     forEach T fuel func (s, u) = Done (s, u) ∧ visited T s = Done []).
Proof.
  intros Hok Hdead Habsent. pose proof (manager_ok_typed s Hok) as Hty.
  split; [|split; [|split; [|split; [|split; [|split; [|split]]]]]].
  - rewrite hasComponent_lookup.
    destruct (lookup_storage_typed T s Hty) as [[_ ->]|(c & _ & Hl)]; [done|].
    rewrite Hl. simpl. by rewrite (Habsent T c Hl).
  - rewrite getComponent_lookup.
    destruct (lookup_storage_typed T s Hty) as [[_ ->]|(c & _ & Hl)]; [done|].
    rewrite Hl. simpl. pose proof (Habsent T c Hl) as Hh.
    apply has_false, find_None_keys in Hh. by rewrite <- Hh.
  - rewrite removeComponent_lookup.
    destruct (lookup_storage_typed T s Hty) as [[_ ->]|(c & _ & Hl)]; [done|].
    rewrite Hl. simpl. rewrite remove_absent by by apply (Habsent T).
    by rewrite store_through_same.
  - simpl. by rewrite filter_ne_absent.
  - simpl. apply map_eq. intros k. rewrite lookup_fmap.
    destruct (lookup_storage_typed k s Hty) as [[-> _]|(c & -> & Hl)]; [done|].
    simpl. f_equal. unfold any_remove, upcast. simpl.
    by rewrite remove_absent by by apply (Habsent k).
  - by apply manager_ok_destroyEntity.
  - intros U fuel func u Hl. by apply forEach_no_storage.
  - intros U fuel func u c Hl Hall. split; [by apply (forEach_no_component T fuel func s u c)|].
    rewrite visited_lookup, Hl. simpl. by rewrite Hall.
Qed.
End component_facts.

(** ** HealthSystem *)

Section health_facts.
Implicit Types (s m : Manager) (e k : Entity) (h : Health) (c : ComponentStorage Health)
  (l : list (Entity * Health)) (out : list Entity).

(** The callable never leaves a negative health; on a health in the range
    of [int] above [INT_MIN] it leaves [max(0, hp - 1)]. *)
Lemma tick_floor h :
  0 ≤ hp (tick h) ∧ (INT_MIN < hp h ≤ INT_MAX → hp (tick h) = Z.max 0 (hp h - 1)).
Proof.
  cbn [tick hp]. split; [lia|]. intros Hr.
  rewrite wrap_in_range by (unfold INT_MIN, INT_MAX in *; lia). done.
Qed.

Lemma tick_zero h : INT_MIN < hp h ≤ 1 → hp (tick h) = 0.
Proof.
  intros Hr. destruct (tick_floor h) as [_ Ht]. rewrite Ht; [lia|].
  unfold INT_MAX. lia.
Qed.

Lemma tick_positive h : 2 ≤ hp h ≤ INT_MAX → hp (tick h) = hp h - 1.
Proof.
  intros Hr. destruct (tick_floor h) as [_ Ht]. rewrite Ht; [lia|].
  unfold INT_MIN. lia.
Qed.

(** A health the callable leaves positive: it is written, nothing else. *)
Lemma health_visit_survives e h m out c :
  lookup_storage THealth m = Done (Some c) →
  get e c = Some h →
  hp (tick h) ≠ 0 →
  health_visit e h (m, out) =
  Done (store_through THealth (with_data (assign e (tick h) (data c)) c) m, out).
Proof.
  intros Hl Hg Hhp. unfold health_visit, write_component. cbn [fst snd].
  rewrite Hl. bind_done. change (Comp THealth) with Health.
  rewrite (get_Some_has e c h Hg). bind_done.
  cbn [tick hp] in Hhp. by rewrite decide_False.
Qed.

(** A health the callable takes to 0: 0 is written and the entity is
    destroyed. *)
Lemma health_visit_destroys e h m out c :
  lookup_storage THealth m = Done (Some c) →
  get e c = Some h →
  hp (tick h) = 0 →
  health_visit e h (m, out) =
  Done (destroyEntity e
          (store_through THealth (with_data (assign e (mkHealth 0) (data c)) c) m),
        out ++ [e]).
Proof.
  intros Hl Hg Hhp. unfold health_visit, write_component. cbn [fst snd].
  rewrite Hl. bind_done. change (Comp THealth) with Health.
  rewrite (get_Some_has e c h Hg). cbn [tick hp] in Hhp. rewrite Hhp. bind_done.
  by rewrite decide_True.
Qed.

(** The traversal of [HealthSystem::update] from any point on: it returns
    when the callable leaves every health still to visit positive, and
    otherwise increments the iterator of an entity it has just destroyed. *)
Lemma health_traversal l pre c m out fuel :
  lookup_storage THealth m = Done (Some c) →
  unique_keys c →
  keys (all c) = pre ++ keys l →
  (∀ k h, (k, h) ∈ l → get k c = Some h) →
  (length l ≤ fuel)%nat →
  forEach_from THealth fuel health_visit (keys l) (m, out) =
  if decide (Forall (λ kv, hp (tick kv.2) ≠ 0) l)
  then Done (store_through THealth (with_data (aged l (data c)) c) m, out)
  else Fault InvalidIterator.
Proof.
  revert pre c m fuel. induction l as [|[k h] l IH]; intros pre c m fuel Hl Hu Hks Hget Hfuel.
  - rewrite decide_True by constructor.
    destruct c as [d r er]. destruct fuel; cbn; by rewrite store_through_same.
  - destruct fuel as [|fuel]; [cbn [length] in Hfuel; lia|].
    change (keys ((k, h) :: l)) with (k :: keys l) in *.
    assert (Hpre : (k ∉ pre) ∧ (k ∉ keys l)).
    { unfold unique_keys in Hu. unfold all in Hks. rewrite Hks in Hu.
      apply NoDup_app in Hu as (_ & Hdis & Hnd). apply NoDup_cons in Hnd as [Hk _].
      split; [|done]. intros Hin. apply (Hdis k Hin). by left. }
    destruct Hpre as [Hpre Hk].
    assert (Hgk : get k c = Some h) by (apply Hget; left).
    cbn [forEach_from fst].
    rewrite (traversed_Some THealth m c Hl). bind_done.
    change (Comp THealth) with Health. rewrite Hgk.
    destruct (decide (hp (tick h) = 0)) as [Hhp|Hhp].
    + rewrite (health_visit_destroys k h m out c Hl Hgk Hhp).
      bind_done; cbn [fst].
      set (c' := with_data (assign k (mkHealth 0) (data c)) c).
      assert (Hl' : lookup_storage THealth (destroyEntity k (store_through THealth c' m))
                    = Done (Some (remove k c'))).
      { by rewrite lookup_destroyEntity, lookup_store_through. }
      rewrite (traversed_Some THealth _ _ Hl'). bind_done.
      rewrite iterator_valid_remove; [|done|].
      * rewrite decide_False; [done|]. by intros [? _]%Forall_cons.
      * apply has_true. subst c'. cbn [data with_data]. rewrite keys_assign.
        by apply has_true, (get_Some_has k c h).
    + rewrite (health_visit_survives k h m out c Hl Hgk Hhp). bind_done; cbn [fst].
      set (c' := with_data (assign k (tick h) (data c)) c).
      rewrite (traversed_Some THealth _ c' (lookup_store_through THealth c' m)).
      bind_done. rewrite iterator_valid_same by done.
      assert (Hkeys : keys (all c') = keys (all c)).
      { unfold all. subst c'. cbn [data with_data]. apply keys_assign. }
      rewrite Hkeys, Hks, after_middle by done.
      rewrite (IH (pre ++ [k]) c' (store_through THealth c' m));
        [|exact (lookup_store_through (C:=Comp) THealth c' m)| | | |cbn [length] in Hfuel; lia].
      * rewrite store_through_twice.
        destruct (decide (Forall (λ kv, hp (tick kv.2) ≠ 0) l)) as [Hall|Hall].
        -- by rewrite decide_True by by constructor.
        -- rewrite decide_False; [done|]. by intros [_ ?]%Forall_cons.
      * unfold unique_keys. fold (all c'). by rewrite Hkeys.
      * by rewrite Hkeys, Hks, <- (assoc_L (++)).
      * intros k' h' Hin. unfold get. subst c'. cbn [data with_data].
        rewrite find_assign. rewrite decide_False; [by apply Hget; right|].
        intros ->. apply Hk. by apply (list_elem_of_fmap_2 fst) in Hin.
Qed.

Lemma assign_app_absent {A} e (v : A) (l1 l2 : list (Entity * A)) :
  find e l1 = None → assign e v (l1 ++ l2) = l1 ++ assign e v l2.
Proof.
  induction l1 as [|[k w] l1 IH]; [done|]. cbn [find app assign].
  destruct (decide (k = e)); [done|]. intros Hn. by rewrite IH.
Qed.

Lemma aged_app l pre :
  NoDup (keys (pre ++ l)) →
  aged l (pre ++ l) = pre ++ (prod_map id tick <$> l).
Proof.
  unfold aged. revert pre. induction l as [|[k h] l IH]; intros pre Hnd; [done|].
  cbn [foldl fst snd fmap list_fmap prod_map].
  rewrite assign_app_absent.
  - cbn [assign]. rewrite decide_True by done.
    rewrite (cons_middle _ pre l), (assoc_L (++)). rewrite IH.
    + by rewrite <- (assoc_L (++)).
    + unfold keys in *. rewrite <- (assoc_L (++)).
      by rewrite !fmap_app in *.
  - apply find_None_keys. unfold keys in *. rewrite fmap_app in Hnd.
    apply NoDup_app in Hnd as (_ & Hdis & _). intros Hin.
    apply (Hdis k Hin). left.
Qed.

(** [HealthSystem::update] on a manager all of whose healths the callable
    leaves positive lowers each and destroys nothing; with a health it
    takes to 0 in the storage it runs into the invalid iterator. *)
Lemma HealthSystem_update_outcome fuel s out c :
  manager_ok s →
  lookup_storage THealth s = Done (Some c) →
  (length (all c) ≤ fuel)%nat →
  HealthSystem_update fuel s out =
  if decide (Forall (λ kv, hp (tick kv.2) ≠ 0) (all c))
  then Done (store_through THealth (with_data (prod_map id tick <$> data c) c) s, out)
  else Fault InvalidIterator.
Proof.
  intros Hok Hl Hfuel. pose proof (manager_ok_lookup THealth s c Hok Hl) as Hu.
  unfold HealthSystem_update, forEach. cbn [fst]. rewrite Hl. bind_done.
  change (Comp THealth) with Health.
  rewrite (health_traversal (all c) [] c s out fuel Hl Hu); [|done| |done].
  - unfold all. pose proof (aged_app (data c) [] Hu) as Ha.
    cbn [app] in Ha. by rewrite Ha.
  - intros k h Hin. by apply elem_find_unique.
Qed.

Lemma HealthSystem_update_faults fuel s out c e h :
  manager_ok s →
  lookup_storage THealth s = Done (Some c) →
  get e c = Some h →
  INT_MIN < hp h ≤ 1 →
  (length (all c) ≤ fuel)%nat →
  HealthSystem_update fuel s out = Fault InvalidIterator.
Proof.
  intros Hok Hl Hg Hhp Hfuel. rewrite (HealthSystem_update_outcome fuel s out c Hok Hl Hfuel).
  rewrite decide_False; [done|]. intros Hall.
  apply find_Some_elem in Hg. rewrite Forall_forall in Hall.
  apply Hall in Hg. cbn [snd] in Hg. by apply Hg, tick_zero.
Qed.
End health_facts.

(** ** The scenarios of the claims *)

Section scenarios.
Context (slot : Entity → list Entity → placement).

(** One entity, created with health 1. *)
Lemma one_entity_health_1 :
  ∃ (s : Manager) c,
    run slot [CreateEntity; AddComponent THealth 0 (copied (mkHealth 1))] new_manager = Done s ∧
    manager_ok s ∧
    entities s = [0] ∧
    lookup_storage THealth s = Done (Some c) ∧
    get 0 c = Some (mkHealth 1) ∧
    length (all c) = 1%nat.
Proof.
  destruct (manager_ok_run (C:=Comp) slot
              [CreateEntity; AddComponent THealth 0 (copied (mkHealth 1))]
              new_manager manager_ok_new) as (s & Hrun & Hok).
  pose proof Hrun as Hs. cbn [run exec] in Hs. rewrite bind_Done in Hs. cbv beta in Hs.
  rewrite addComponent_lookup in Hs.
  rewrite (lookup_storage_None (C:=Comp) THealth) in Hs by done.
  rewrite !bind_Done in Hs. injection Hs as <-.
  eexists _, _. split; [exact Hrun|]. split; [done|]. split; [done|].
  split; [exact (lookup_store_through (C:=Comp) THealth _ _)|].
  cbn [default]. split.
  - rewrite get_emplace by apply unique_keys_new. by rewrite decide_True.
  - by rewrite all_emplace_new.
Qed.

(** Two entities, with healths 1 and 5. *)
Lemma two_entities_health_1_5 :
  ∃ (s : Manager) c,
    run slot [CreateEntity; AddComponent THealth 0 (copied (mkHealth 1));
              CreateEntity; AddComponent THealth 1 (copied (mkHealth 5))] new_manager = Done s ∧
    manager_ok s ∧
    entities s = [0; 1] ∧
    lookup_storage THealth s = Done (Some c) ∧
    get 0 c = Some (mkHealth 1) ∧
    get 1 c = Some (mkHealth 5) ∧
    length (all c) = 2%nat.
Proof.
  destruct (manager_ok_run (C:=Comp) slot
              [CreateEntity; AddComponent THealth 0 (copied (mkHealth 1));
               CreateEntity; AddComponent THealth 1 (copied (mkHealth 5))]
              new_manager manager_ok_new) as (s & Hrun & Hok).
  pose proof Hrun as Hs. cbn [run exec] in Hs. rewrite bind_Done in Hs. cbv beta in Hs.
  rewrite addComponent_lookup in Hs.
  rewrite (lookup_storage_None (C:=Comp) THealth) in Hs by done.
  rewrite !bind_Done in Hs. cbv beta in Hs.
  rewrite addComponent_lookup, lookup_createEntity in Hs.
  rewrite (lookup_store_through (C:=Comp) THealth) in Hs.
  rewrite !bind_Done in Hs. injection Hs as <-.
  eexists _, _. split; [exact Hrun|]. split; [done|]. split; [done|].
  split; [exact (lookup_store_through (C:=Comp) THealth _ _)|].
  cbn [default]. change (Comp THealth) with Health.
  set (c1 := emplace slot 0 (copied (mkHealth 1)) new_storage).
  assert (Hu1 : unique_keys c1) by apply unique_keys_emplace, unique_keys_new.
  assert (Hg1 : get 0 c1 = Some (mkHealth 1)).
  { subst c1. rewrite get_emplace by apply unique_keys_new. by rewrite decide_True. }
  assert (Hh1 : has 1 c1 = false).
  { subst c1. by rewrite has_emplace, decide_False. }
  split; [by rewrite get_emplace, decide_False|].
  split; [rewrite get_emplace, decide_True by done; by rewrite Hh1|].
  unfold all. rewrite (data_emplace_new slot 1 _ c1 Hh1). cbn [length]. f_equal.
  subst c1. fold (all (emplace slot 0 (copied (mkHealth 1)) (@new_storage Health))).
  by rewrite all_emplace_new.
Qed.

(** C8, where the code departs from it.  The callable of [update] writes
    [max(0, hp - 1)], never a negative health, and destroys the entity when
    that is 0; on a manager whose healths are all 2 or more the update
    lowers each by one.  But a health of 1 or less makes the update
    increment the iterator of the entity it has just destroyed, after which
    C++ gives the program no meaning: for the entity created with health 1
    the update does not return, and there is no later [forEach<Health>] from
    which it could be absent. *)
Theorem health_update_on_dying_entity :
  (∀ h, 0 ≤ hp (tick h) ∧
        (INT_MIN < hp h ≤ INT_MAX → hp (tick h) = Z.max 0 (hp h - 1))) ∧
  (∀ e h (m : Manager) out c,
     lookup_storage THealth m = Done (Some c) → get e c = Some h →
     INT_MIN < hp h ≤ 1 →
     ∃ m', health_visit e h (m, out) = Done (m', out ++ [e]) ∧
           (e ∉ entities m') ∧
           hasComponent THealth e m' = Done false) ∧
  (∀ fuel (s : Manager) out c,
     manager_ok s → lookup_storage THealth s = Done (Some c) →
     Forall (λ kv, 2 ≤ hp kv.2 ≤ INT_MAX) (all c) →
     (length (all c) ≤ fuel)%nat →
     HealthSystem_update fuel s out =
     Done (store_through THealth (with_data (prod_map id tick <$> data c) c) s, out)) ∧
  (∀ fuel (s : Manager) out c e h,
     manager_ok s → lookup_storage THealth s = Done (Some c) →
     get e c = Some h → INT_MIN < hp h ≤ 1 →
     (length (all c) ≤ fuel)%nat →
     HealthSystem_update fuel s out = Fault InvalidIterator) ∧
  ∀ fuel,
    (s ← run slot [CreateEntity; AddComponent THealth 0 (copied (mkHealth 1))] new_manager;
     HealthSystem_update (S fuel) s []) = Fault InvalidIterator.
Proof.
  split; [apply tick_floor|]. split; [|split; [|split]].
  - intros e h m out c Hl Hg Hhp.
    rewrite (health_visit_destroys e h m out c Hl Hg (tick_zero h Hhp)).
    eexists. split; [done|]. split.
    + simpl. by intros [Hne _]%list_elem_of_filter.
    + rewrite hasComponent_lookup, lookup_destroyEntity.
      rewrite (lookup_store_through (C:=Comp) THealth). rewrite !bind_Done.
      cbn [fmap option_fmap option_map from_option]. by rewrite has_remove, decide_True.
  - intros fuel s out c Hok Hl Hall Hfuel.
    rewrite (HealthSystem_update_outcome fuel s out c Hok Hl Hfuel).
    rewrite decide_True; [done|]. eapply Forall_impl; [exact Hall|].
    intros [k h] Hr. cbn [snd] in *. rewrite tick_positive by done. lia.
  - apply HealthSystem_update_faults.
  - intros fuel. destruct one_entity_health_1 as (s & c & -> & Hok & _ & Hl & Hg & Hlen).
    rewrite bind_Done.
    apply (HealthSystem_update_faults (S fuel) s [] c 0 (mkHealth 1)); [done..| |].
    + cbn [hp]. unfold INT_MIN. lia.
    + change (Comp THealth) with Health in *. rewrite Hlen. lia.
Qed.

(** C2, where the code departs from it.  [forEach] is a range-for over the
    map and [destroyEntity] erases the node the iterator stands on, so the
    increment that follows the call is that of an invalidated iterator:
    a callable that destroys the entity it visits faults on any storage
    that is not empty.  With two entities of healths 1 and 5 the update does not return,
    wherever the hash table links its nodes; when the entity of health 1 is
    the first of the traversal, the callable has been called on it alone. *)
Theorem health_update_breaks_traversal :
  (∀ T (s : Manager) U (u : U) c fuel,
     lookup_storage T s = Done (Some c) → all c ≠ [] →
     forEach T (S fuel) (λ e _ st, Done (destroyEntity e st.1, st.2)) (s, u)
       = Fault InvalidIterator) ∧
  (∀ fuel,
     (s ← run slot [CreateEntity; AddComponent THealth 0 (copied (mkHealth 1));
                    CreateEntity; AddComponent THealth 1 (copied (mkHealth 5))] new_manager;
      HealthSystem_update (S (S fuel)) s []) = Fault InvalidIterator) ∧
  ∃ (s : Manager) h1 m,
    run (λ _ l, Link (length l))
        [CreateEntity; AddComponent THealth 0 (copied (mkHealth 1));
         CreateEntity; AddComponent THealth 1 (copied (mkHealth 5))]
        new_manager = Done s ∧
    visited THealth s = Done [(0, mkHealth 1); (1, mkHealth 5)] ∧
    health_visit 0 h1 (s, []) = Done (m, [0]) ∧
    getComponent THealth 1 m = Done (Some (mkHealth 5)) ∧
    forEach_from THealth 2 health_visit [0; 1] (s, []) = Fault InvalidIterator ∧
    forEach_from THealth 1 health_visit [1] (m, [0]) =
      Done (store_through THealth (mkStorage [(1, mkHealth 4)] 0 [0]) m, [0]).
Proof.
  split; [intros T s U u c fuel; apply forEach_destroy_current|]. split.
  - intros fuel.
    destruct two_entities_health_1_5 as (s & c & -> & Hok & _ & Hl & Hg & _ & Hlen).
    rewrite bind_Done.
    apply (HealthSystem_update_faults _ s [] c 0 (mkHealth 1)); [done..| |].
    + cbn [hp]. unfold INT_MIN. lia.
    + change (Comp THealth) with Health in *. rewrite Hlen. lia.
  - eexists _, (mkHealth 1), _. split; [vm_compute; reflexivity|].
    split; [vm_compute; reflexivity|]. split; [vm_compute; reflexivity|].
    split; [vm_compute; reflexivity|]. split; vm_compute; reflexivity.
Qed.

(** C5, where the code departs from it.  [emplace] forwards its arguments
    twice: to build the component it hands to [data.emplace], and again to
    build the one it assigns when the key was there.  After two
    [addComponent] on the same entity the component found is the one built
    at the second use of the second call's arguments.  For arguments that
    forwarding leaves as they are that is the value given, as the claim
    says; for a [Name] passed as an rvalue, as [main] passes it, the string
    was moved out at the first use and the name stored is empty. *)
Theorem overwrite_stores_moved_from_value :
  (∀ (s : Manager) T e (a1 a2 : arg (Comp T)),
     manager_ok s →
     (s1 ← addComponent (C:=Comp) slot T e a1 s;
      s2 ← addComponent (C:=Comp) slot T e a2 s1;
      getComponent (C:=Comp) T e s2) = Done (Some (reused a2))) ∧
  (∀ (s : Manager) T e (a1 : arg (Comp T)) (v2 : Comp T),
     manager_ok s →
     (s1 ← addComponent (C:=Comp) slot T e a1 s;
      s2 ← addComponent (C:=Comp) slot T e (copied v2) s1;
      getComponent (C:=Comp) T e s2) = Done (Some v2)) ∧
  (∀ e n1 n2,
     (s1 ← addComponent (C:=Comp) slot TName e (rvalue_name n1) new_manager;
      s2 ← addComponent (C:=Comp) slot TName e (rvalue_name n2) s1;
      getComponent (C:=Comp) TName e s2) = Done (Some (mkName EmptyString))) ∧
  (s1 ← addComponent (C:=Comp) slot TName 0 (rvalue_name (mkName "a")) new_manager;
   s2 ← addComponent (C:=Comp) slot TName 0 (rvalue_name (mkName "b")) s1;
   getComponent (C:=Comp) TName 0 s2) = Done (Some (mkName EmptyString)) ∧
  mkName EmptyString ≠ mkName "b".
Proof.
  assert (Hgen : ∀ (s : Manager) T e (a1 a2 : arg (Comp T)),
     manager_ok s →
     (s1 ← addComponent (C:=Comp) slot T e a1 s;
      s2 ← addComponent (C:=Comp) slot T e a2 s1;
      getComponent (C:=Comp) T e s2) = Done (Some (reused a2))).
  { intros s T e a1 a2 Hok.
    destruct (addComponent_twice slot T e a1 a2 s Hok) as (s2 & c & Hrun & _ & _ & Hg & _).
    destruct (addComponent slot T e a1 s) as [s1|f]; [|done].
    change (addComponent slot T e a2 s1 = Done s2) in Hrun.
    bind_done. rewrite Hrun. by bind_done. }
  split; [exact Hgen|]. split; [intros s T e a1 v2; apply Hgen|].
  split; [intros e n1 n2; apply (Hgen new_manager TName), manager_ok_new|].
  split; [apply (Hgen new_manager TName), manager_ok_new | discriminate].
Qed.
(** C10, where the code departs from it.  No component operation looks at
    the live list: for every id, live or not, [addComponent] returns,
    leaves the live list, the free list and the counter alone and stores a
    component, which [hasComponent], [getComponent] and [forEach] then
    find.  The component stored is the one built from the arguments when
    the entity had none of the type; when it had one it is the component
    [emplace] builds at the second use of its arguments (the defect of
    C5): for id 7, never created, given a [Name] twice, the name stored is
    empty. *)
Theorem nonlive_overwrite_loses_value :
  (∀ (s : Manager) T e (a : arg (Comp T)),
     manager_ok s →
     ∃ s' v, addComponent slot T e a s = Done s' ∧
             entities s' = entities s ∧ freeIds s' = freeIds s ∧ nextId s' = nextId s ∧
             hasComponent T e s' = Done true ∧
             getComponent T e s' = Done (Some v) ∧
             (∃ l, visited T s' = Done l ∧ (e, v) ∈ l) ∧
             (hasComponent T e s = Done false → v = fresh a) ∧
             (hasComponent T e s = Done true → v = reused a)) ∧
  (∀ (s s2 : Manager) T e,
     components s2 = components s →
     hasComponent T e s2 = hasComponent T e s ∧
     getComponent T e s2 = getComponent T e s ∧
     visited T s2 = visited T s) ∧
  ∃ s : Manager,
    run slot [AddComponent TName 7 (rvalue_name (mkName "a"));
              AddComponent TName 7 (rvalue_name (mkName "b"))] new_manager = Done s ∧
    entities s = [] ∧
    hasComponent TName 7 s = Done true ∧
    getComponent TName 7 s = Done (Some (mkName EmptyString)) ∧
    mkName EmptyString ≠ mkName "b".
Proof.
  split; [|split].
  - intros s T e a Hok.
    exact (proj1 (components_ignore_liveness slot T e a s Hok)).
  - intros s s2 T e Hc.
    pose proof (lookup_storage_components (C:=Comp) T s2 s Hc) as Hl.
    by rewrite !hasComponent_lookup, !getComponent_lookup, !visited_lookup, Hl.
  - destruct (addComponent_twice (C:=Comp) slot TName 7 (rvalue_name (mkName "a"))
                (rvalue_name (mkName "b")) new_manager manager_ok_new)
      as (s2 & c & Htw & Hl & _ & Hg & _).
    exists s2. split.
    { cbn [run exec].
      destruct (addComponent slot TName 7 (rvalue_name (mkName "a")) new_manager)
        as [s1|f]; [|done].
      change (addComponent slot TName 7 (rvalue_name (mkName "b")) s1 = Done s2) in Htw.
      bind_done. rewrite Htw. by bind_done. }
    split; [|split; [|split; [exact Hg | discriminate]]].
    + apply bind_Done_inv in Htw as (s1 & E1 & E2).
      rewrite addComponent_lookup in E1, E2.
      apply bind_Done_inv in E1 as (o1 & _ & [= <-]).
      apply bind_Done_inv in E2 as (o2 & _ & [= <-]). done.
    + rewrite hasComponent_lookup, Hl. bind_done. cbn [from_option]. f_equal.
      rewrite getComponent_lookup, Hl in Hg. rewrite bind_Done in Hg.
      injection Hg as Hg. exact (get_Some_has 7 c _ Hg).
Qed.
End scenarios.

(** ** Instances on the managers [demo] and [stray] *)

Lemma demo_reached : run front demo_calls new_manager = Done demo.
Proof. vm_compute. reflexivity. Qed.

Lemma demo_ok : manager_ok demo.
Proof. apply (reachable_ok front). exists demo_calls. apply demo_reached. Qed.

Lemma demo_live : components_live demo.
Proof.
  intros T c e Hl He. apply has_true in He.
  destruct T; vm_compute in Hl; simplify_eq; simpl in He.
  - apply elem_of_cons in He as [->|He]; [by right; left|].
    apply list_elem_of_singleton in He as ->. by left.
  - apply list_elem_of_singleton in He as ->. by left.
Qed.

Lemma stray_reached :
  run front [AddComponent THealth 7 (copied (mkHealth 5))] new_manager = Done stray.
Proof. vm_compute. reflexivity. Qed.

Lemma stray_ok : manager_ok stray.
Proof. apply (reachable_ok front). eexists. apply stray_reached. Qed.

(** An instance of C4: entity 0 of [demo] has a health; once destroyed it
    has none. *)
Lemma destroyEntity_cascades_witness :
  registry_typed demo ∧
  is_Some (components demo !! THealth) ∧
  hasComponent THealth 0 demo = Done true ∧
  hasComponent THealth 0 (destroyEntity 0 demo) = Done false ∧
  getComponent THealth 0 (destroyEntity 0 demo) = Done None.
Proof.
  pose proof (manager_ok_typed demo demo_ok) as Hty.
  assert (Hs : is_Some (components demo !! THealth)) by (vm_compute; eauto).
  split; [exact Hty|]. split; [exact Hs|]. split; [vm_compute; reflexivity|].
  pose proof (destroyEntity_cascades THealth 0 demo Hty) as (_ & Hhas & Hget & _).
  split; [exact Hhas | exact Hget].
Defined.

(** An instance of C9: a new health for entity 0 leaves its name alone. *)
Lemma addComponent_frame_witness :
  THealth ≠ TName ∧
  ∃ s', addComponent front THealth 0 (copied (mkHealth 9)) demo = Done s' ∧
        getComponent TName 0 s' = getComponent TName 0 demo ∧
        getComponent TName 0 demo = Done (Some (mkName "hero")).
Proof.
  assert (Hne : THealth ≠ TName) by discriminate.
  split; [exact Hne|].
  destruct (manager_ok_addComponent front THealth 0 (copied (mkHealth 9)) demo demo_ok)
    as (s' & Hadd & _).
  exists s'. split; [exact Hadd|].
  pose proof (addComponent_frame front THealth TName 0 (copied (mkHealth 9)) demo s' Hne Hadd)
    as (_ & _ & _ & Hsame).
  split; [exact (proj2 (Hsame 0)) | vm_compute; reflexivity].
Defined.

(** C3 fails as stated: an id that was never created is destroyed, and
    the third [createEntity] takes from the counter the id 1, which the
    first has issued and which is live; and at [INT_MAX] the counter does
    not increase. *)
Lemma counter_issues_live_id :
  issued front [DestroyEntity 1; CreateEntity; CreateEntity; CreateEntity]
    (new_manager : Manager) = [1; 0; 1] ∧
  (∃ s3 : Manager,
     run front [DestroyEntity 1; CreateEntity; CreateEntity] new_manager = Done s3 ∧
     freeIds s3 = [] ∧ entities s3 = [1; 0] ∧
     (createEntity s3).1 = nextId s3 ∧
     (createEntity s3).1 ∈ entities s3) ∧
  nextId (createEntity (mkManager INT_MAX [] [] ∅ : Manager)).2 = INT_MIN.
Proof.
  split; [vm_compute; reflexivity|]. split; [|vm_compute; reflexivity].
  eexists. split; [vm_compute; reflexivity|]. split; [reflexivity|].
  split; [reflexivity|]. split; [reflexivity|]. by left.
Qed.

(** C6 fails as stated: id 7 was never live, a health was attached to it
    all the same, and the operations then find that component. *)
Lemma nonlive_entity_with_component :
  ∃ s : Manager,
    run front [AddComponent THealth 7 (copied (mkHealth 5))] new_manager = Done s ∧
    (7 ∉ entities s) ∧
    hasComponent THealth 7 s = Done true ∧
    getComponent THealth 7 s = Done (Some (mkHealth 5)) ∧
    ∃ s', removeComponent THealth 7 s = Done s' ∧ s' ≠ s.
Proof.
  eexists. split; [vm_compute; reflexivity|].
  split; [not_listed|]. split; [vm_compute; reflexivity|].
  split; [vm_compute; reflexivity|].
  eexists. split; [vm_compute; reflexivity|].
  intros Heq. apply (f_equal (λ s : Manager, hasComponent THealth 7 s)) in Heq.
  vm_compute in Heq. discriminate.
Qed.

(** An instance of C6 as it holds, on the manager where id 7 has a
    component without being live: id 8 has none. *)
Lemma absent_entity_is_tolerated_witness :
  manager_ok stray ∧
  (8 ∉ entities stray) ∧
  (∀ T' c, lookup_storage T' stray = Done (Some c) → has 8 c = false) ∧
  hasComponent THealth 8 stray = Done false ∧
  getComponent THealth 8 stray = Done None ∧
  removeComponent THealth 8 stray = Done stray ∧
  components (destroyEntity 8 stray) = components stray.
Proof.
  assert (Hdead : 8 ∉ entities stray) by not_listed.
  assert (Hnone : ∀ T' c, lookup_storage T' stray = Done (Some c) → has 8 c = false).
  { intros T' c Hl. destruct T'; vm_compute in Hl; simplify_eq. vm_compute. reflexivity. }
  split; [exact stray_ok|]. split; [exact Hdead|]. split; [exact Hnone|].
  pose proof (absent_entity_is_tolerated THealth 8 stray stray_ok Hdead Hnone)
    as (Hhas & Hget & Hrem & _ & Hcomp & _).
  split; [exact Hhas|]. split; [exact Hget|]. split; [exact Hrem | exact Hcomp].
Defined.

(** An instance of the uniqueness of ids under disciplined use: two
    entities, the first destroyed while live, a third created. *)
Lemma disciplined_ids_unique_witness :
  ids_ok (new_manager : Manager) ∧
  nextId (new_manager : Manager) + Z.of_nat 4 ≤ INT_MAX ∧
  destroys_live front [CreateEntity; CreateEntity; DestroyEntity 0; CreateEntity]
    (new_manager : Manager) ∧
  ∃ s' : Manager,
    run front [CreateEntity; CreateEntity; DestroyEntity 0; CreateEntity] new_manager
      = Done s' ∧
    entities s' = [1; 0] ∧
    NoDup (entities s').
Proof.
  assert (Hd : destroys_live front
                 [CreateEntity; CreateEntity; DestroyEntity 0; CreateEntity]
                 (new_manager : Manager)).
  { cbn. repeat split. by left. }
  assert (Hlen : nextId (new_manager : Manager) + Z.of_nat 4 ≤ INT_MAX)
    by (vm_compute; discriminate).
  split; [exact ids_ok_new|]. split; [exact Hlen|]. split; [exact Hd|].
  eexists. split; [vm_compute; reflexivity|]. split; [reflexivity|].
  exact (proj2 (disciplined_ids_unique front
                  [CreateEntity; CreateEntity; DestroyEntity 0; CreateEntity]
                  new_manager _ ids_ok_new Hlen Hd eq_refl)).
Defined.

(** * Further properties of the code *)

(** ** ComponentStorage<C>: what a caller of the storage can rely on *)

Section storage_properties.
Context {A : Type} (slot : Entity → list Entity → placement).
Implicit Types (e : Entity) (v : A) (l : list (Entity * A)) (c : ComponentStorage A).

Lemma length_assign e v l : length (assign e v l) = length l.
Proof.
  induction l as [|[k w] l IH]; [done|]. cbn [assign].
  destruct (decide (k = e)); cbn [length]; by rewrite ?IH.
Qed.

Lemma length_erase_present e l :
  NoDup (keys l) → e ∈ keys l → S (length (erase e l)) = length l.
Proof.
  unfold keys, erase. induction l as [|[k w] l IH]; intros Hnd Hin.
  - by apply elem_of_nil in Hin.
  - rewrite fmap_cons in Hnd, Hin. cbn [fst] in Hnd, Hin.
    apply NoDup_cons in Hnd as [Hk Hnd].
    rewrite filter_cons. cbn [fst]. destruct (decide (k ≠ e)) as [Hne|Heq].
    + apply elem_of_cons in Hin as [->|Hin]; [done|].
      cbn [length]. by rewrite IH.
    + apply dec_stable in Heq. subst k. cbn [length]. f_equal.
      fold (erase e l). by rewrite erase_absent.
Qed.

Lemma erase_insert_at n e v l :
  e ∉ keys l → erase e (take n l ++ (e, v) :: drop n l) = l.
Proof.
  intros Hn. unfold erase. rewrite filter_app, filter_cons_False by (cbn; by intros ?).
  rewrite <- filter_app, take_drop. by apply erase_absent.
Qed.

(** An insertion that links the node without rehash keeps the old nodes in
    their order. *)
Lemma storage_traversal_order_link e (a : arg A) c n :
  has e c = false → slot e (keys (all c)) = Link n →
  filter (λ k, k ≠ e) (keys (all (emplace slot e a c))) = keys (all c) ∧
  all (remove e (emplace slot e a c)) = all c.
Proof.
  intros Hh Hn. unfold all in *. rewrite data_remove.
  pose proof Hh as Hf. apply has_false in Hf. pose proof Hf as Hf'.
  apply find_None_keys in Hf'.
  unfold emplace. rewrite Hf', Hn. cbn [data with_data].
  rewrite <- keys_erase. by rewrite erase_insert_at.
Qed.

(** [emplace] then [get]: the entity emplaced has the component built from
    the arguments, at their first use if it had none and at their second
    if it had one; every other entity has what it had. *)
Theorem emplace_then_get e e' (a : arg A) c :
  unique_keys c →
  get e' (emplace slot e a c) =
    (if decide (e = e') then Some (if has e c then reused a else fresh a) else get e' c) ∧
  has e' (emplace slot e a c) = (if decide (e = e') then true else has e' c).
Proof.
  intros Hu. split; [by apply get_emplace | apply has_emplace].
Qed.

(** [remove] then [get]: the entity removed has nothing left, the others
    keep what they had; removing twice is removing once, and removing an
    entity the storage does not hold changes nothing. *)
Theorem remove_then_get e e' c :
  get e' (remove e c) = (if decide (e = e') then None else get e' c) ∧
  has e' (remove e c) = (if decide (e = e') then false else has e' c) ∧
  remove e (remove e c) = remove e c ∧
  (has e c = false → remove e c = c).
Proof.
  split; [apply get_remove|]. split; [apply has_remove|]. split.
  - apply remove_absent. by rewrite has_remove, decide_True.
  - apply remove_absent.
Qed.

(** The storage keeps one node per entity at most, and its size follows:
    [emplace] adds a node exactly when the entity had none, [remove] takes
    one away exactly when it had one. *)
Theorem storage_size_accounting e (a : arg A) c :
  unique_keys c →
  unique_keys (emplace slot e a c) ∧
  unique_keys (remove e c) ∧
  length (all (emplace slot e a c)) =
    (if has e c then length (all c) else S (length (all c))) ∧
  length (all (remove e c)) =
    (if has e c then Nat.pred (length (all c)) else length (all c)) ∧
  ∀ v1 v2, (e, v1) ∈ all c → (e, v2) ∈ all c → v1 = v2.
Proof.
  intros Hu. split; [by apply unique_keys_emplace|].
  split; [by apply unique_keys_remove|]. split; [|split].
  - unfold all. destruct (has e c) eqn:Hh.
    + rewrite data_emplace_old by done. cbn [data with_data]. apply length_assign.
    + by rewrite (data_emplace_new slot e a c Hh).
  - unfold all. rewrite data_remove. destruct (has e c) eqn:Hh.
    + apply has_true in Hh. by rewrite <- (length_erase_present e (data c)).
    + apply has_false in Hh. by rewrite erase_absent.
  - intros v1 v2 H1 H2.
    apply (elem_find_unique e v1 _ Hu) in H1. apply (elem_find_unique e v2 _ Hu) in H2.
    congruence.
Qed.

(** The order of the traversal: overwriting the component of an entity
    keeps every node in place; an insertion leaves the old nodes and the
    new one in some order, and when it does not rehash the old nodes keep
    theirs, so that removing the new entity again gives the nodes back as
    they were; [remove] takes the node out and leaves the rest in order. *)
Theorem storage_traversal_order e (a : arg A) c :
  (has e c = true → keys (all (emplace slot e a c)) = keys (all c)) ∧
  (has e c = false →
     keys (all (emplace slot e a c)) ≡ₚ e :: keys (all c) ∧
     ∀ n, slot e (keys (all c)) = Link n →
          filter (λ k, k ≠ e) (keys (all (emplace slot e a c))) = keys (all c) ∧
          all (remove e (emplace slot e a c)) = all c) ∧
  keys (all (remove e c)) = filter (λ k, k ≠ e) (keys (all c)).
Proof.
  unfold all. split; [|split].
  - intros Hh. rewrite data_emplace_old by done. cbn [data with_data]. apply keys_assign.
  - intros Hh. split.
    { pose proof (keys_emplace slot e a c) as Hk. by rewrite Hh in Hk. }
    intros n Hn. by apply (storage_traversal_order_link e a c n).
  - rewrite data_remove. apply keys_erase.
Qed.
End storage_properties.

(** ** EntityManager: components *)

Section manager_properties.
Context `{Countable K} {C : K → Type} (slot : Entity → list Entity → placement).
Implicit Types (s : EntityManager C) (e id : Entity) (T : K).

(** [removeComponent<T>(e)] never faults on a well-typed registry; after it
    the entity has no component of type [T], every other entity and every
    other type is as before, the live list, the free list and the counter
    are untouched, and a second call changes nothing. *)
Theorem removeComponent_removes T e s :
  registry_typed s →
  ∃ s', removeComponent T e s = Done s' ∧
        hasComponent T e s' = Done false ∧
        getComponent T e s' = Done None ∧
        (∀ e', e' ≠ e → getComponent T e' s' = getComponent T e' s ∧
                        hasComponent T e' s' = hasComponent T e' s) ∧
        (∀ T', T' ≠ T → lookup_storage T' s' = lookup_storage T' s) ∧
        entities s' = entities s ∧ freeIds s' = freeIds s ∧ nextId s' = nextId s ∧
        removeComponent T e s' = Done s'.
Proof.
  intros Hty. rewrite removeComponent_lookup.
  destruct (lookup_storage_typed T s Hty) as [[_ Hl]|(c & _ & Hl)]; rewrite Hl; simpl;
    eexists; (split; [reflexivity|]).
  - rewrite hasComponent_lookup, getComponent_lookup, removeComponent_lookup, Hl.
    repeat split; done.
  - assert (Hl' : lookup_storage T (store_through T (remove e c) s) = Done (Some (remove e c)))
      by apply lookup_store_through.
    split; [rewrite hasComponent_lookup, Hl'; simpl; by rewrite has_remove, decide_True|].
    split; [rewrite getComponent_lookup, Hl'; simpl; by rewrite get_remove, decide_True|].
    split.
    { intros e' Hne. rewrite !hasComponent_lookup, !getComponent_lookup, Hl', Hl. simpl.
      by rewrite has_remove, get_remove, !decide_False by done. }
    split; [intros T' Hne; by apply lookup_store_through_ne|].
    do 3 (split; [done|]).
    rewrite removeComponent_lookup, Hl'. simpl. f_equal.
    rewrite store_through_twice.
    assert (Hr : remove e (remove e c) = remove e c).
    { apply remove_absent. by rewrite has_remove, decide_True. }
    by rewrite Hr.
Qed.

(** Adding a component to an entity that has none of that type and removing
    it again leaves every component of every entity as it was, and the
    pairs of every traversal; their order too when the insertion has not
    rehashed the table. *)
Theorem add_then_remove_restores T e (a : arg (C T)) s :
  manager_ok s →
  hasComponent T e s = Done false →
  ∃ s1 s2, addComponent slot T e a s = Done s1 ∧
           removeComponent T e s1 = Done s2 ∧
           (∀ T' e', getComponent T' e' s2 = getComponent T' e' s ∧
                     hasComponent T' e' s2 = hasComponent T' e' s) ∧
           (∀ T', ∃ l l', visited T' s2 = Done l ∧ visited T' s = Done l' ∧
                          l ≡ₚ l' ∧ (T' ≠ T → l = l')) ∧
           (∀ l0 n, visited T s = Done l0 → slot e (keys l0) = Link n →
                    ∀ T', visited T' s2 = visited T' s) ∧
           entities s2 = entities s ∧ freeIds s2 = freeIds s ∧ nextId s2 = nextId s.
Proof.
  intros Hok Hno. pose proof (manager_ok_typed s Hok) as Hty.
  rewrite hasComponent_lookup in Hno.
  destruct (lookup_storage T s) as [oc|f] eqn:Hl; [|done]. simpl in Hno.
  pose proof (unique_keys_default T s oc Hok Hl) as Hu0.
  set (c0 := default new_storage oc) in *.
  set (c' := remove e (emplace slot e a c0)).
  assert (Hh : has e c0 = false).
  { subst c0. destruct oc as [c|]; simpl in *; [congruence | done]. }
  assert (Hall0 : from_option all [] oc = all c0) by (subst c0; by destruct oc).
  assert (Hd : data c' ≡ₚ data c0).
  { subst c'. rewrite data_remove. unfold erase.
    rewrite (data_emplace_new slot e a c0 Hh), filter_cons_False by (cbn; tauto).
    fold (erase e (data c0)). rewrite erase_absent; [done | by apply has_false]. }
  assert (Hg : ∀ e', get e' c' = get e' c0).
  { intros e'. subst c'. rewrite get_remove, get_emplace by done.
    destruct (decide (e = e')) as [<-|]; [|done].
    symmetry. by apply find_None_keys, has_false. }
  exists (store_through T (emplace slot e a c0) s), (store_through T c' s).
  split; [by rewrite addComponent_lookup, Hl|].
  split.
  { rewrite removeComponent_lookup, lookup_store_through. simpl.
    by rewrite store_through_twice. }
  assert (Hsame : lookup_storage T (store_through T c' s) = Done (Some c'))
    by apply lookup_store_through.
  assert (Hother : ∀ T', T' ≠ T →
            lookup_storage T' (store_through T c' s) = lookup_storage T' s).
  { intros T' Hne. by apply lookup_store_through_ne. }
  split; [|split; [|split; [|done]]].
  - intros T' e'. rewrite !hasComponent_lookup, !getComponent_lookup.
    destruct (decide (T' = T)) as [->|Hne]; [|by rewrite Hother].
    rewrite Hsame, Hl. repeat bind_done. cbn [mbind option_bind from_option].
    rewrite !has_get, Hg. subst c0. by destruct oc.
  - intros T'. rewrite !visited_lookup. destruct (decide (T' = T)) as [->|Hne].
    + rewrite Hsame, Hl. repeat bind_done. cbn [from_option]. rewrite Hall0.
      exists (all c'), (all c0). do 2 (split; [done|]). split; [exact Hd | done].
    + rewrite Hother by done.
      destruct (lookup_storage_typed T' s Hty) as [[_ ->]|(c & _ & ->)];
        repeat bind_done; eexists _, _; repeat split; done.
  - intros l0 n Hvis Hn T'. rewrite !visited_lookup in *.
    destruct (decide (T' = T)) as [->|Hne]; [|by rewrite Hother].
    rewrite Hsame, Hl in *. repeat bind_done. cbn [from_option]. rewrite Hall0.
    rewrite bind_Done in Hvis. cbv beta in Hvis. rewrite Hall0 in Hvis.
    injection Hvis as <-. f_equal.
    destruct (storage_traversal_order_link slot e a c0 n Hh Hn) as [_ Hr]. exact Hr.
Qed.

(** The three queries agree: [hasComponent] is true exactly when
    [getComponent] is not [nullptr], and [getComponent] gives a value
    exactly when [forEach] visits the entity with that value. *)
Theorem queries_agree T e s :
  manager_ok s →
  (hasComponent T e s = Done true ↔ ∃ v, getComponent T e s = Done (Some v)) ∧
  (hasComponent T e s = Done false ↔ getComponent T e s = Done None) ∧
  (∀ v, getComponent T e s = Done (Some v) ↔
        ∃ l, visited T s = Done l ∧ (e, v) ∈ l).
Proof.
  intros Hok. pose proof (manager_ok_typed s Hok) as Hty.
  rewrite hasComponent_lookup, getComponent_lookup, visited_lookup.
  destruct (lookup_storage_typed T s Hty) as [[_ Hl]|(c & _ & Hl)];
    rewrite Hl; simpl.
  - split; [split; [done | by intros [? ?]]|]. split; [done|].
    intros v. split; [done|]. intros (l & [= <-] & Hin). by apply elem_of_nil in Hin.
  - pose proof (manager_ok_lookup T s c Hok Hl) as Hu.
    split; [|split].
    + rewrite has_get. split.
      * intros [= Hh]. apply bool_decide_eq_true in Hh as [v Hv]. exists v. by rewrite Hv.
      * intros [v [= Hv]]. f_equal. apply bool_decide_eq_true. by rewrite Hv.
    + rewrite has_get. split.
      * intros [= Hh]. apply bool_decide_eq_false in Hh. f_equal.
        destruct (get e c); [|done]. exfalso. apply Hh. eauto.
      * intros [= Hv]. f_equal. apply bool_decide_eq_false. rewrite Hv. by intros [? ?].
    + intros v. split.
      * intros [= Hv]. exists (all c). split; [done|]. by apply elem_all_get.
      * intros (l & [= <-] & Hin). f_equal. by apply elem_all_get.
Qed.

(** [destroyEntity(e)] touches nothing of any other entity: its components
    of every type and its being live or not are as before; [e] itself is
    no longer live, and neither the counter nor the set of registered types
    changes. *)
Theorem destroyEntity_frame T e e' s :
  e' ≠ e →
  getComponent T e' (destroyEntity e s) = getComponent T e' s ∧
  hasComponent T e' (destroyEntity e s) = hasComponent T e' s ∧
  (e' ∈ entities (destroyEntity e s) ↔ e' ∈ entities s) ∧
  (e ∉ entities (destroyEntity e s)) ∧
  nextId (destroyEntity e s) = nextId s ∧
  dom (components (destroyEntity e s)) = dom (components s).
Proof.
  intros Hne. rewrite !hasComponent_lookup, !getComponent_lookup, lookup_destroyEntity.
  split; [|split; [|split; [|split; [|split]]]].
  - destruct (lookup_storage T s) as [[c|]|f]; [|done..]. simpl.
    by rewrite get_remove, decide_False.
  - destruct (lookup_storage T s) as [[c|]|f]; [|done..]. simpl.
    by rewrite has_remove, decide_False.
  - simpl. rewrite list_elem_of_filter. by split; [intros [_ ?] | intros ?].
  - simpl. by intros [? _]%list_elem_of_filter.
  - done.
  - simpl. by rewrite dom_fmap_L.
Qed.
End manager_properties.

(** ** EntityManager: the lifecycle of ids *)

Section lifecycle_properties.
Context `{Countable K} {C : K → Type} (slot : Entity → list Entity → placement).
Implicit Types (s : EntityManager C) (e id : Entity) (T : K).

Lemma filter_ne_snoc (l : list Entity) e :
  NoDup l → e ∈ l → filter (λ x, x ≠ e) l ++ [e] ≡ₚ l.
Proof.
  induction l as [|y l IH]; intros Hnd Hin.
  - by apply elem_of_nil in Hin.
  - apply NoDup_cons in Hnd as [Hy Hnd]. rewrite filter_cons.
    destruct (decide (y ≠ e)) as [Hne|Heq].
    + apply elem_of_cons in Hin as [->|Hin]; [done|].
      cbn [app]. by rewrite IH.
    + apply dec_stable in Heq. subst y. rewrite filter_ne_absent by done.
      symmetry. apply Permutation_cons_append.
Qed.

Lemma ids_full_nodup s : ids_full s → NoDup (entities s ++ freeIds s).
Proof. intros [_ Hp]. rewrite Hp. apply NoDup_seqZ. Qed.

Lemma ids_full_new : ids_full (@new_manager K _ _ C).
Proof. split; [done|]. simpl. by rewrite seqZ_nil. Qed.

Lemma ids_full_createEntity s :
  ids_full s → nextId s < INT_MAX → ids_full (createEntity s).2.
Proof.
  intros [Hpos Hp] Hmax.
  assert (Hw : wrap (nextId s + 1) = nextId s + 1).
  { apply wrap_in_range. unfold INT_MIN, INT_MAX in *. lia. }
  destruct (last (freeIds s)) as [x|] eqn:E.
  - apply last_Some in E as [l Hl]. rewrite (createEntity_recycled s l x Hl).
    split; [done|]. simpl. rewrite <- Hp, Hl.
    rewrite <- !(assoc_L (++)). f_equiv. apply Permutation_app_comm.
  - apply last_None in E. rewrite (createEntity_fresh s E).
    split; simpl; rewrite Hw; [lia|]. rewrite E, app_nil_r in Hp. rewrite app_nil_r, Hp.
    rewrite (seqZ_app 0 (nextId s) 1) by lia. done.
Qed.

Lemma ids_full_destroyEntity e s :
  ids_full s → e ∈ entities s → ids_full (destroyEntity e s).
Proof.
  intros Hfull Hin. pose proof (ids_full_nodup s Hfull) as Hnd.
  destruct Hfull as [Hpos Hp]. split; [done|]. simpl. rewrite <- Hp.
  apply NoDup_app in Hnd as (Hnd & _ & _).
  rewrite <- (filter_ne_snoc (entities s) e Hnd Hin) at 2.
  rewrite <- !(assoc_L (++)). f_equiv. apply Permutation_app_comm.
Qed.

Lemma ids_full_exec (c : call C) s s' :
  ids_full s → nextId s < INT_MAX →
  destroys_live slot [c] s → exec slot c s = Done s' → ids_full s'.
Proof.
  intros Hok Hmax [Hlive _]. destruct c as [|id|T e v|T e]; simpl.
  - intros [= <-]. by apply ids_full_createEntity.
  - intros [= <-]. by apply ids_full_destroyEntity.
  - rewrite addComponent_lookup. intros (o & _ & [= <-])%bind_Done_inv. done.
  - rewrite removeComponent_lookup. intros (o & _ & [= <-])%bind_Done_inv.
    by destruct o.
Qed.

(** No id is ever lost: as long as [destroyEntity] is given live ids only
    and the calls are fewer than [INT_MAX], the live list and the free list
    together hold each id the counter has issued, [0] to [nextId - 1],
    exactly once; the number of live entities and of free ids add up to
    the counter. *)
Theorem ids_never_leak (cs : list (call C)) s :
  destroys_live slot cs new_manager →
  Z.of_nat (length cs) < INT_MAX →
  run slot cs new_manager = Done s →
  entities s ++ freeIds s ≡ₚ seqZ 0 (nextId s) ∧
  Z.of_nat (length (entities s) + length (freeIds s)) = nextId s ∧
  ∀ x, 0 ≤ x < nextId s → (x ∈ entities s ∧ x ∉ freeIds s) ∨ (x ∈ freeIds s ∧ x ∉ entities s).
Proof.
  intros Hd Hlen Hrun.
  assert (Hgen : ∀ (cs : list (call C)) s0,
            ids_full s0 → nextId s0 + Z.of_nat (length cs) ≤ INT_MAX →
            destroys_live slot cs s0 → run slot cs s0 = Done s → ids_full s).
  { clear. intros cs. induction cs as [|c cs IH]; intros s0 H0 Hlen Hd; simpl.
    - by intros [= <-].
    - cbn [length] in Hlen. intros (s1 & Hc & Hrun)%bind_Done_inv. destruct Hd as [Hc1 Hd].
      rewrite Hc in Hd. pose proof H0 as [Hpos _].
      pose proof (exec_nextId slot c s0 s1 ltac:(lia) Hc) as Hstep.
      apply (IH s1); [|lia|done|done].
      apply (ids_full_exec c s0); [done|lia| |done]. simpl. by rewrite Hc. }
  assert (Hfull : ids_full s).
  { apply (Hgen cs new_manager); [apply ids_full_new|simpl; lia|done|done]. }
  pose proof (ids_full_nodup s Hfull) as Hnd. destruct Hfull as [Hpos Hp].
  split; [done|]. split.
  - rewrite <- length_app, Hp, length_seqZ. lia.
  - intros x Hx. assert (Hin : x ∈ entities s ++ freeIds s).
    { rewrite Hp. apply elem_of_seqZ. lia. }
    apply NoDup_app in Hnd as (_ & Hdis & _).
    apply elem_of_app in Hin as [Hin|Hin].
    + left. split; [done|]. by apply Hdis.
    + right. split; [done|]. intros Hl. by apply (Hdis x).
Qed.

(** The bookkeeping stays sound when an id is recycled, wherever the
    counter stands. *)
Lemma ids_ok_recycle s l x :
  ids_ok s → freeIds s = l ++ [x] → ids_ok (createEntity s).2.
Proof.
  intros (Hpos & Hnd & Hrange) Hl. rewrite (createEntity_recycled s l x Hl). simpl.
  rewrite Hl in Hnd, Hrange.
  assert (Hperm : (entities s ++ [x]) ++ l ≡ₚ entities s ++ l ++ [x]).
  { rewrite <- !(assoc_L (++)). f_equiv. apply Permutation_app_comm. }
  split; [done|]. split; simpl.
  - by rewrite Hperm.
  - intros y Hy. apply Hrange. by rewrite <- Hperm.
Qed.

(** A new entity starts with nothing: when the ids are in order, the
    counter below [INT_MAX] and the components on live entities, the id
    [createEntity] returns was not live, is live afterwards, and has no
    component of any type, be it a recycled id or a new one. *)
Theorem created_entity_is_blank T s :
  ids_ok s →
  nextId s < INT_MAX →
  components_live s →
  registry_typed s →
  ((createEntity s).1 ∉ entities s) ∧
  (createEntity s).1 ∈ entities (createEntity s).2 ∧
  ids_ok (createEntity s).2 ∧
  components_live (createEntity s).2 ∧
  hasComponent T (createEntity s).1 (createEntity s).2 = Done false ∧
  getComponent T (createEntity s).1 (createEntity s).2 = Done None.
Proof.
  intros Hids Hmax Hlive Hty.
  destruct (ids_ok_createEntity s Hids Hmax) as [Hids' Hnew].
  split; [done|]. split.
  { rewrite createEntity_entities. apply elem_of_app. right. by left. }
  split; [done|]. split.
  { by apply (components_live_exec slot CreateEntity s). }
  rewrite hasComponent_lookup, getComponent_lookup, lookup_createEntity.
  destruct (lookup_storage_typed T s Hty) as [[_ Hl]|(c & _ & Hl)]; rewrite Hl; simpl;
    [done|].
  assert (Hh : has (createEntity s).1 c = false).
  { destruct (has (createEntity s).1 c) eqn:E; [|done].
    exfalso. apply Hnew. by apply (Hlive T c). }
  rewrite Hh. split; [done|]. f_equal.
  apply has_false, find_None_keys in Hh. exact Hh.
Qed.

(** Destroying a live entity and creating one right after gives the same
    id back, at the end of the live list and without any component; the
    counter and the rest of the free list are as before and the ids stay
    in order. *)
Theorem destroy_then_create_recycles T e s :
  ids_ok s →
  registry_typed s →
  e ∈ entities s →
  (createEntity (destroyEntity e s)).1 = e ∧
  entities (createEntity (destroyEntity e s)).2 = filter (λ x, x ≠ e) (entities s) ++ [e] ∧
  freeIds (createEntity (destroyEntity e s)).2 = freeIds s ∧
  nextId (createEntity (destroyEntity e s)).2 = nextId s ∧
  ids_ok (createEntity (destroyEntity e s)).2 ∧
  NoDup (entities (createEntity (destroyEntity e s)).2) ∧
  hasComponent T e (createEntity (destroyEntity e s)).2 = Done false.
Proof.
  intros Hids Hty Hin.
  pose proof (ids_ok_destroyEntity e s Hids Hin) as Hids1.
  assert (Hf : freeIds (destroyEntity e s) = freeIds s ++ [e]) by done.
  pose proof (ids_ok_recycle _ _ e Hids1 Hf) as Hids2.
  pose proof (createEntity_recycled (destroyEntity e s) _ e Hf) as Hc.
  split; [by rewrite Hc|]. split; [by rewrite Hc|]. split; [by rewrite Hc|].
  split; [by rewrite Hc|]. split; [done|]. split.
  { destruct Hids2 as (_ & Hnd & _). by apply NoDup_app in Hnd as (? & _ & _). }
  rewrite hasComponent_lookup, lookup_createEntity, lookup_destroyEntity.
  destruct (lookup_storage_typed T s Hty) as [[_ Hl]|(c & _ & Hl)]; rewrite Hl; simpl;
    [done|]. by rewrite has_remove, decide_True.
Qed.
End lifecycle_properties.

(** ** forEach: which callables it is safe with *)

Section traversal_properties.
Context `{Countable K} {C : K → Type}.
Implicit Types (s m : EntityManager C) (e k : Entity) (T : K).

Lemma sublist_covering {A} (l' l : list A) :
  NoDup l → l' `sublist_of` l → (∀ x, x ∈ l → x ∈ l') → l' = l.
Proof.
  intros Hnd Hsub. induction Hsub as [|x l1 l2 Hsub IH|x l1 l2 Hsub IH]; intros Hall.
  - done.
  - apply NoDup_cons in Hnd as [Hx Hnd]. f_equal. apply IH; [done|].
    intros y Hy. assert (Hy' : y ∈ x :: l1) by (apply Hall; by right).
    apply elem_of_cons in Hy' as [->|]; done.
  - apply NoDup_cons in Hnd as [Hx Hnd]. exfalso. apply Hx.
    apply (elem_of_sublist l1 l2); [|done]. apply Hall. by left.
Qed.

Lemma filter_agree (P Q : Entity → Prop) `{∀ j, Decision (P j)} `{∀ j, Decision (Q j)}
    (l : list Entity) :
  (∀ j, j ∈ l → P j ↔ Q j) → filter P l = filter Q l.
Proof.
  induction l as [|j l IH]; intros Hext; [done|]. rewrite !filter_cons.
  rewrite IH by (intros i Hi; apply Hext; by right).
  destruct (decide (P j)) as [Hp|Hp], (decide (Q j)) as [Hq|Hq]; try done;
    exfalso; [apply Hq | apply Hp]; by apply (Hext j); [left|].
Qed.

(** What is left of a list after erasures is the list filtered. *)
Lemma sublist_as_filter (l' l : list Entity) :
  NoDup l → l' `sublist_of` l → l' = filter (λ j, j ∈ l') l.
Proof.
  intros Hnd Hsub. induction Hsub as [|j l1 l2 Hsub IH|j l1 l2 Hsub IH].
  - done.
  - apply NoDup_cons in Hnd as [Hj Hnd]. rewrite filter_cons_True by left. f_equal.
    rewrite (IH Hnd) at 1. apply filter_agree. intros i Hi. rewrite elem_of_cons.
    split; [auto | intros [->|]; done].
  - apply NoDup_cons in Hnd as [Hj Hnd]. rewrite filter_cons_False; [by apply IH|].
    intros Hin. apply Hj. by apply (elem_of_sublist l1 l2).
Qed.

(** After erasures, what follows the node of [k] is what followed it
    before and is still there. *)
Lemma after_sublist k pre rest (l' : list Entity) :
  NoDup (pre ++ k :: rest) → l' `sublist_of` pre ++ k :: rest → k ∈ l' →
  after k l' = filter (λ j, j ∈ l') rest.
Proof.
  intros Hnd Hsub Hk. rewrite (sublist_as_filter l' _ Hnd Hsub) at 1.
  rewrite after_filter by done. f_equal. apply after_middle.
  apply NoDup_app in Hnd as (_ & Hdis & _). intros Hin. apply (Hdis k Hin). by left.
Qed.

Lemma foldl_with_log {A U} (g : Entity → A → U → U) (l lg : list (Entity * A)) (u : U) :
  foldl (λ ul kv, (g kv.1 kv.2 ul.1, ul.2 ++ [(kv.1, kv.2)])) (u, lg) l =
  (foldl (λ acc kv, g kv.1 kv.2 acc) u l, lg ++ l).
Proof.
  revert u lg. induction l as [|[k v] l IH]; intros u lg; cbn [foldl fst snd].
  - by rewrite app_nil_r.
  - rewrite IH. by rewrite <- (assoc_L (++)).
Qed.

(** A callable that returns the manager as it found it. *)
Lemma forEach_unchanged {U} T fuel (func : visitor C U T) (g : Entity → C T → U → U)
    s c (u : U) :
  lookup_storage T s = Done (Some c) →
  unique_keys c →
  (length (all c) ≤ fuel)%nat →
  (∀ k v u, func k v (s, u) = Done (s, g k v u)) →
  forEach_from T fuel func (keys (all c)) (s, u) =
  Done (s, foldl (λ acc kv, g kv.1 kv.2 acc) u (all c)).
Proof.
  intros Hl Hu Hfuel Hfunc.
  rewrite (forEach_from_stable T func (λ k v st, (s, g k v st.2))
             (λ l st, st.1 = s ∧ ∀ kv, kv ∈ l → kv ∈ all c) c Hu) with (pre := []).
  - f_equal. generalize (all c). intros l. revert u.
    induction l as [|[k v] l IH]; intros u; [done|]. cbn [foldl fst snd]. apply IH.
  - intros l st [-> Hin]. exists c. do 4 (split; [done|]).
    intros k v Hkv. apply elem_find_unique; [done|]. by apply Hin.
  - intros k v l [m u0] [Hs Hin]. cbn [fst snd] in *. subst m.
    split; [apply Hfunc|]. split; [done|]. intros kv Hkv. apply Hin. by right.
  - done.
  - done.
  - done.
Qed.

(** A callable that only reads the manager is called once on each pair of
    the storage, in the order of the storage: on such a callable the
    mutable [forEach] does what the [const] overload does, and the pairs it
    is called on are those the storage holds. *)
Theorem forEach_overloads_agree {U} T fuel (func : visitor C U T)
    (g : Entity → C T → U → U) s (u : U) :
  manager_ok s →
  (nodes T s ≤ fuel)%nat →
  (∀ k v u, func k v (s, u) = Done (s, g k v u)) →
  forEach T fuel func (s, u) = (u' ← forEach_const T g s u; Done (s, u')) ∧
  forEach T fuel (logged T func) (s, (u, [])) =
    (u' ← forEach_const T g s u; l ← visited T s; Done (s, (u', l))).
Proof.
  intros Hok Hfuel Hfunc. rewrite visited_lookup. unfold forEach, forEach_const. cbn [fst].
  destruct (lookup_storage T s) as [[c|]|f] eqn:E; [|done..]. repeat bind_done.
  cbn [from_option]. rewrite (nodes_Some T s c E) in Hfuel.
  pose proof (manager_ok_lookup T s c Hok E) as Hu.
  split; [by apply (forEach_unchanged T fuel func g s c u E)|].
  rewrite (forEach_unchanged T fuel (logged T func)
             (λ k v ul, (g k v ul.1, ul.2 ++ [(k, v)])) s c (u, []) E); [|done..|].
  - by rewrite foldl_with_log.
  - intros k v [u0 lg]. unfold logged. cbn [fst snd]. by rewrite Hfunc.
Qed.

Lemma logged_call {U} T (func : visitor C U T) k v m (u : U) lg m1 u1 :
  func k v (m, u) = Done (m1, u1) →
  logged T func k v (m, (u, lg)) = Done (m1, (u1, lg ++ [(k, v)])).
Proof. intros Hf. unfold logged. cbn [fst snd]. by rewrite Hf. Qed.

Lemma after_split k (l : list Entity) : k ∈ l → ∃ pre, l = pre ++ k :: after k l.
Proof.
  induction l as [|j l IH]; intros Hin; [by apply elem_of_nil in Hin|].
  cbn [after]. destruct (decide (j = k)) as [->|Hne]; [by exists []|].
  apply elem_of_cons in Hin as [->|Hin]; [done|].
  destruct (IH Hin) as [pre Hpre]. exists (j :: pre). cbn [app]. by rewrite <- Hpre.
Qed.

(** The traversal from any point on, for a callable that neither rehashes
    the traversed storage nor erases the node it is called on, and leaves
    the nodes it does not erase in their order. *)
Lemma forEach_from_tolerant {U} T (func : visitor C U T) (P : EntityManager C → Prop) :
  (∀ k v m u c, P m → lookup_storage T m = Done (Some c) → get k c = Some v →
     ∃ m' u' c', func k v (m, u) = Done (m', u') ∧ P m' ∧
                 lookup_storage T m' = Done (Some c') ∧
                 iterator_valid k c c' = true ∧ has k c' = true ∧
                 keys (all c') `sublist_of` keys (all c)) →
  ∀ fuel pending pre m u lg c,
    (length pending ≤ fuel)%nat →
    keys (all c) = pre ++ pending → unique_keys c →
    P m → lookup_storage T m = Done (Some c) →
    ∃ m' u' c' vs,
      forEach_from T fuel func pending (m, u) = Done (m', u') ∧
      forEach_from T fuel (logged T func) pending (m, (u, lg)) = Done (m', (u', lg ++ vs)) ∧
      vs.*1 `sublist_of` pending ∧
      P m' ∧ lookup_storage T m' = Done (Some c') ∧
      keys (all c') `sublist_of` keys (all c) ∧
      (∀ j, j ∈ pending → j ∈ keys (all c') → j ∈ vs.*1).
Proof.
  intros Hfunc fuel.
  induction fuel as [|fuel IH]; intros pending pre m u lg c Hfuel Hks Hu HP Hl.
  - destruct pending; [|cbn [length] in Hfuel; lia].
    exists m, u, c, []. rewrite app_nil_r.
    repeat split; try done; intros j Hj; by apply elem_of_nil in Hj.
  - destruct pending as [|k rest].
    { exists m, u, c, []. rewrite app_nil_r.
      repeat split; try done; intros j Hj; by apply elem_of_nil in Hj. }
    assert (Hkin : k ∈ keys (all c)).
    { rewrite Hks. apply elem_of_app. right. by left. }
    destruct (proj2 (find_is_Some_keys k (data c)) Hkin) as [v Hg].
    destruct (Hfunc k v m u c HP Hl Hg)
      as (m1 & u1 & c1 & Hf & HP1 & Hl1 & Hv1 & Hk1 & Hsub1).
    assert (Hnd : NoDup (pre ++ k :: rest)) by (rewrite <- Hks; exact Hu).
    assert (Hk1' : k ∈ keys (all c1)) by by apply has_true.
    pose proof Hsub1 as Hsub1'. rewrite Hks in Hsub1'.
    pose proof (after_sublist k pre rest _ Hnd Hsub1' Hk1') as Hafter.
    destruct (after_split k _ Hk1') as [pre1 Hpre1].
    assert (Hlen : (length (after k (keys (all c1))) ≤ fuel)%nat).
    { rewrite Hafter. pose proof (sublist_length _ _ (sublist_filter (λ j, j ∈ keys (all c1)) rest)).
      cbn [length] in Hfuel. lia. }
    assert (Hu1 : unique_keys c1).
    { unfold unique_keys. apply (sublist_NoDup _ (keys (all c))); done. }
    destruct (IH (after k (keys (all c1))) (pre1 ++ [k]) m1 u1 (lg ++ [(k, v)]) c1
                Hlen ltac:(by rewrite <- (assoc_L (++))) Hu1 HP1 Hl1)
      as (m' & u' & c' & vs & Hrun & Hlog & Hvs & HP' & Hl' & Hsub' & Hcov).
    exists m', u', c', ((k, v) :: vs).
    cbn [forEach_from fst]. rewrite (traversed_Some T m c Hl). repeat bind_done.
    unfold get in Hg |- *. rewrite Hg.
    rewrite Hf, (logged_call T func k v m u lg m1 u1 Hf). repeat bind_done.
    cbn [fst snd]. rewrite (traversed_Some T m1 c1 Hl1). repeat bind_done.
    rewrite Hv1.
    split; [done|]. split; [by rewrite Hlog, <- (assoc_L (++))|].
    split.
    { rewrite fmap_cons. apply sublist_skip. etrans; [exact Hvs|].
      rewrite Hafter. apply sublist_filter. }
    split; [done|]. split; [done|]. split; [by etrans|].
    intros j Hj Hin. rewrite fmap_cons. cbn [fst].
    apply elem_of_cons in Hj as [->|Hj]; [by left|]. right. apply Hcov; [|done].
    rewrite Hafter. apply list_elem_of_filter. split; [|done].
    by apply (elem_of_sublist _ _ j Hin).
Qed.

(** [forEach] is safe with a callable that keeps some property [P] of the
    manager and, on a manager with [P], neither rehashes the storage it
    traverses nor erases the node it is called on; it may erase others,
    and leaves those it does not erase in their order.  The traversal then
    returns within as many steps as the storage has nodes; the callable
    has been called on entities of the storage only, in the order of the
    storage and none twice, and on every one that is still there at the
    end.  If no node was erased it has been called on each entity exactly
    once. *)
Theorem forEach_tolerates_erasure {U} T fuel (func : visitor C U T)
    (P : EntityManager C → Prop) s (u : U) c :
  (∀ k v m u c, P m → lookup_storage T m = Done (Some c) → get k c = Some v →
     ∃ m' u' c', func k v (m, u) = Done (m', u') ∧ P m' ∧
                 lookup_storage T m' = Done (Some c') ∧
                 iterator_valid k c c' = true ∧ has k c' = true ∧
                 keys (all c') `sublist_of` keys (all c)) →
  P s →
  lookup_storage T s = Done (Some c) →
  unique_keys c →
  (length (all c) ≤ fuel)%nat →
  ∃ m' u' c' vs,
    forEach T fuel func (s, u) = Done (m', u') ∧
    forEach T fuel (logged T func) (s, (u, [])) = Done (m', (u', vs)) ∧
    P m' ∧ lookup_storage T m' = Done (Some c') ∧
    vs.*1 `sublist_of` keys (all c) ∧
    NoDup vs.*1 ∧
    (∀ j, j ∈ keys (all c') → j ∈ vs.*1) ∧
    (keys (all c') ≡ₚ keys (all c) → vs.*1 = keys (all c)).
Proof.
  intros Hfunc HP Hl Hu Hfuel.
  assert (Hlen : (length (keys (all c)) ≤ fuel)%nat) by (unfold keys; by rewrite length_fmap).
  destruct (forEach_from_tolerant T func P Hfunc fuel (keys (all c)) [] s u [] c
              Hlen eq_refl Hu HP Hl)
    as (m' & u' & c' & vs & Hrun & Hlog & Hvs & HP' & Hl' & Hsub & Hcov).
  exists m', u', c', vs. unfold forEach. cbn [fst]. rewrite Hl. repeat bind_done.
  split; [done|]. split; [done|]. split; [done|]. split; [done|]. split; [done|].
  split; [by apply (sublist_NoDup _ (keys (all c)))|].
  assert (Hall : ∀ j, j ∈ keys (all c') → j ∈ vs.*1).
  { intros j Hj. apply Hcov; [|done]. by apply (elem_of_sublist _ _ j Hj). }
  split; [done|]. intros Hperm. apply sublist_covering; [done|done|].
  intros j Hj. apply Hall. by rewrite Hperm.
Qed.
End traversal_properties.

(** ** The systems *)

Section health_properties.
Implicit Types (s m : Manager) (e k : Entity) (h : Health) (c : ComponentStorage Health)
  (out : list Entity).

Lemma Forall_tick (n : nat) (d : list (Entity * Health)) :
  Forall (λ kv, 2 ≤ hp kv.2 ≤ INT_MAX) d →
  (Forall (λ kv, Z.of_nat n < hp kv.2) (prod_map id tick <$> d) ↔
   Forall (λ kv, Z.of_nat (S n) < hp kv.2) d).
Proof.
  intros H2. rewrite Forall_fmap. rewrite !Forall_forall. rewrite Forall_forall in H2.
  split; intros Hall kv Hin; specialize (Hall kv Hin); specialize (H2 kv Hin);
    destruct kv as [k h]; cbn [snd prod_map compose] in *;
    rewrite tick_positive in * by done; lia.
Qed.

Lemma fmap_tick_lower (n : nat) (d : list (Entity * Health)) :
  Forall (λ kv, 2 ≤ hp kv.2 ≤ INT_MAX) d →
  prod_map id (λ h, mkHealth (hp h - Z.of_nat n)) <$> (prod_map id tick <$> d) =
  prod_map id (λ h, mkHealth (hp h - Z.of_nat (S n))) <$> d.
Proof.
  intros H2. rewrite <- list_fmap_compose. apply Forall_fmap_ext.
  eapply Forall_impl; [exact H2|]. intros [k h] Hh. cbn [snd] in Hh.
  unfold prod_map, compose. cbn [fst snd]. rewrite tick_positive by done.
  f_equal. f_equal. lia.
Qed.

Lemma fmap_lower_0 (d : list (Entity * Health)) :
  prod_map id (λ h, mkHealth (hp h - Z.of_nat 0)) <$> d = d.
Proof.
  induction d as [|[k [n]] d IH]; [done|]. rewrite fmap_cons, IH.
  unfold prod_map. simpl. by rewrite Z.sub_0_r.
Qed.

(** On healths in the range of [int] the callable leaves a health
    positive exactly when it was 2 or more. *)
Lemma Forall_survive (d : list (Entity * Health)) :
  Forall (λ kv, INT_MIN < hp kv.2 ≤ INT_MAX) d →
  (Forall (λ kv, hp (tick kv.2) ≠ 0) d ↔ Forall (λ kv, 2 ≤ hp kv.2 ≤ INT_MAX) d).
Proof.
  intros Hr. rewrite !Forall_forall. rewrite Forall_forall in Hr.
  split; intros Hall kv Hin; specialize (Hall kv Hin); specialize (Hr kv Hin);
    destruct (tick_floor kv.2) as [_ Ht]; specialize (Ht Hr); lia.
Qed.

(** [n] calls of [HealthSystem::update] in a row, as the ticks of [main]
    make them, on healths of [int] above [INT_MIN], where [hp - 1] is in
    range: they all return exactly
    when every health is above [n], and then each health is [n] lower, no
    entity was destroyed, nothing was printed, and nothing but the healths
    has changed; with a health of [n] or less around, one of the first [n]
    updates increments the iterator of an entity it has destroyed. *)
Theorem HealthSystem_ticks_outcome (n : nat) fuel s out c :
  manager_ok s →
  lookup_storage THealth s = Done (Some c) →
  Forall (λ kv, INT_MIN < hp kv.2 ≤ INT_MAX) (all c) →
  (length (all c) ≤ fuel)%nat →
  HealthSystem_ticks n fuel s out =
  if decide (n = 0%nat ∨ Forall (λ kv, Z.of_nat n < hp kv.2) (all c))
  then Done (store_through THealth
               (with_data (prod_map id (λ h, mkHealth (hp h - Z.of_nat n)) <$> data c) c)
               s, out)
  else Fault InvalidIterator.
Proof.
  revert s c. induction n as [|n IH]; intros s c Hok Hl Hr Hfuel.
  - rewrite decide_True by by left. cbn [HealthSystem_ticks].
    rewrite fmap_lower_0. destruct c as [d r er]. cbn [data with_data rehashes erased].
    by rewrite store_through_same.
  - cbn [HealthSystem_ticks]. rewrite (HealthSystem_update_outcome fuel s out c Hok Hl Hfuel).
    destruct (decide (Forall (λ kv, hp (tick kv.2) ≠ 0) (all c))) as [H2|H2].
    + apply (Forall_survive _ Hr) in H2. bind_done. cbn [fst snd].
      set (c1 := with_data (prod_map id tick <$> data c) c).
      assert (Hk1 : keys (data c1) = keys (data c)).
      { unfold keys. subst c1. cbn [data with_data]. rewrite <- list_fmap_compose.
        by replace (fst ∘ prod_map id tick) with (@fst Entity Health) by done. }
      assert (Hu1 : unique_keys c1).
      { unfold unique_keys. rewrite Hk1. apply (manager_ok_lookup THealth s c Hok Hl). }
      assert (Hok1 : manager_ok (store_through THealth c1 s)).
      { by apply (manager_ok_store_through (C:=Comp) THealth c1 s). }
      assert (Hr1 : Forall (λ kv, INT_MIN < hp kv.2 ≤ INT_MAX) (all c1)).
      { unfold all. subst c1. cbn [data with_data]. rewrite Forall_fmap.
        eapply Forall_impl; [exact H2|]. intros [k h] Hh.
        cbn [snd prod_map compose] in *. rewrite tick_positive by done.
        unfold INT_MIN. lia. }
      assert (Hf1 : (length (all c1) ≤ fuel)%nat).
      { unfold all. subst c1. cbn [data with_data]. by rewrite length_fmap. }
      change (HealthSystem_ticks n fuel (store_through THealth c1 s) out =
              if decide (S n = 0%nat ∨ Forall (λ kv, Z.of_nat (S n) < hp kv.2) (all c))
              then Done (store_through THealth
                           (with_data
                              (prod_map id (λ h, mkHealth (hp h - Z.of_nat (S n))) <$> data c) c)
                           s, out)
              else Fault InvalidIterator).
      rewrite (IH (store_through THealth c1 s) c1 Hok1
                 (lookup_store_through (C:=Comp) THealth c1 s) Hr1 Hf1).
      rewrite store_through_twice. subst c1. unfold all in *.
      cbn [data with_data rehashes erased]. unfold with_data.
      cbn [data rehashes erased].
      rewrite (fmap_tick_lower n (data c) H2).
      destruct (decide (S n = 0%nat ∨ Forall (λ kv, Z.of_nat (S n) < hp kv.2) (data c)))
        as [[?|Hall]|Hnot]; [done| |].
      * rewrite decide_True; [done|]. right. by apply Forall_tick.
      * rewrite decide_False; [done|]. intros [->|Hall].
        -- apply Hnot. right. eapply Forall_impl; [exact H2|].
           intros kv Hkv. cbv beta in *. lia.
        -- apply Hnot. right. by apply (Forall_tick n).
    + rewrite decide_False; [done|]. intros [?|Hall]; [done|]. apply H2.
      apply (Forall_survive _ Hr). unfold all in *.
      apply Forall_forall. rewrite Forall_forall in Hall, Hr.
      intros kv Hin. specialize (Hall kv Hin). specialize (Hr kv Hin). lia.
Qed.
End health_properties.

Section render_properties.
Implicit Types (s m : Manager) (e k : Entity).

Lemma getComponent_typed (T : CompId) e s :
  registry_typed s → ∃ o, getComponent T e s = Done o.
Proof.
  intros Hty. rewrite getComponent_lookup.
  destruct (lookup_storage_typed T s Hty) as [[_ ->]|(c & _ & ->)]; by eexists.
Qed.

Lemma render_visit_line e p s out :
  registry_typed s → render_visit e p (s, out) = Done (s, out ++ [render_line s e p]).
Proof.
  intros Hty. unfold render_visit, render_line. cbn [fst snd].
  destruct (getComponent_typed TName e s Hty) as [n ->].
  destruct (getComponent_typed THealth e s Hty) as [h ->].
  repeat bind_done. by destruct n, h.
Qed.

Lemma foldl_snoc_fmap {A B} (f : A → B) (l : list A) (acc : list B) :
  foldl (λ acc a, acc ++ [f a]) acc l = acc ++ (f <$> l).
Proof.
  revert acc. induction l as [|a l IH]; intros acc; cbn [foldl fmap list_fmap].
  - by rewrite app_nil_r.
  - rewrite IH. by rewrite <- (assoc_L (++)).
Qed.

(** [RenderSystem::render] returns, within as many steps as there are
    positions, and leaves the manager as it is.  It streams one line per
    entity with a [Position], in the order of the storage: the entity's
    name or ["unnamed"], its id, its coordinates, and its health or [-1];
    entities without a position give no line. *)
Theorem RenderSystem_render_lines fuel s out :
  manager_ok s →
  (nodes TPosition s ≤ fuel)%nat →
  RenderSystem_render fuel s out =
    (ps ← visited TPosition s;
     Done (s, out ++ ((λ kv, render_line s kv.1 kv.2) <$> ps))) ∧
  (∀ e p, getComponent TName e s = Done None → line_name (render_line s e p) = "unnamed") ∧
  (∀ e p n, getComponent TName e s = Done (Some n) →
            line_name (render_line s e p) = value n) ∧
  (∀ e p, getComponent THealth e s = Done None → line_hp (render_line s e p) = -1) ∧
  (∀ e p h, getComponent THealth e s = Done (Some h) → line_hp (render_line s e p) = hp h).
Proof.
  intros Hok Hfuel. pose proof (manager_ok_typed s Hok) as Hty. split.
  - rewrite visited_lookup. unfold RenderSystem_render, forEach. cbn [fst].
    destruct (lookup_storage_typed TPosition s Hty) as [[_ Hl]|(c & _ & Hl)]; rewrite Hl;
      repeat bind_done; cbn [from_option].
    + by rewrite app_nil_r.
    + rewrite (nodes_Some (C:=Comp) TPosition s c Hl) in Hfuel.
      rewrite (forEach_unchanged (C:=Comp) TPosition fuel render_visit
                 (λ k v acc, acc ++ [render_line s k v]) s c out Hl).
      * by rewrite (foldl_snoc_fmap (λ kv, render_line s kv.1 kv.2)).
      * by apply (manager_ok_lookup TPosition s c).
      * done.
      * intros k v u. by apply render_visit_line.
  - unfold render_line. cbn [line_name line_hp].
    split; [by intros e p ->|]. split; [by intros e p n ->|].
    split; [by intros e p ->|]. by intros e p h ->.
Qed.
End render_properties.

Section movement_properties.
Context (fadd fmul : float → float → float).
Implicit Types (s m : Manager) (e k : Entity) (dt : float)
  (cV : ComponentStorage Velocity) (cP : ComponentStorage Position).

Lemma position_not_velocity : TPosition ≠ TVelocity.
Proof. discriminate. Qed.

(** One call of the callable on a manager that has positions. *)
Lemma movement_visit_moves dt e v m (u : unit) cP :
  lookup_storage TPosition m = Done (Some cP) →
  movement_visit fadd fmul dt e v (m, u) =
  Done (match get e cP with
        | Some p => store_through TPosition
                      (with_data (assign e (moved fadd fmul dt p v) (data cP)) cP) m
        | None => m
        end, u).
Proof.
  intros Hl. unfold movement_visit. cbn [fst snd].
  rewrite getComponent_lookup, Hl. repeat bind_done. cbn [mbind option_bind].
  change (Comp TPosition) with Position.
  destruct (get e cP) as [p|] eqn:Hg; [|done]. cbv zeta.
  unfold write_component at 2. rewrite Hl. repeat bind_done.
  change (Comp TPosition) with Position.
  rewrite (get_Some_has e cP p Hg).
  set (p1 := mkPosition (fadd (x p) (fmul (dx v) dt)) (y p)).
  set (c1 := with_data (assign e p1 (data cP)) cP).
  repeat bind_done. unfold write_component.
  rewrite (lookup_store_through (C:=Comp) TPosition c1 m). repeat bind_done.
  assert (Hh : has e c1 = true).
  { apply has_true. subst c1. cbn [data with_data]. rewrite keys_assign.
    by apply has_true, (get_Some_has e cP p). }
  change (Comp TPosition) with Position. rewrite Hh. repeat bind_done.
  rewrite store_through_twice. subst c1. unfold with_data. cbn [data rehashes erased].
  by rewrite assign_assign.
Qed.

Lemma movement_visit_skips dt e v m (u : unit) :
  lookup_storage TPosition m = Done None →
  movement_visit fadd fmul dt e v (m, u) = Done (m, u).
Proof.
  intros Hl. unfold movement_visit. cbn [fst snd].
  rewrite getComponent_lookup, Hl. by repeat bind_done.
Qed.

(** The traversal from any point on: the velocities stay, the positions
    advance. *)
Lemma movement_traversal dt m (u : unit) cV (r : nat) (er : list Entity)
    (l : list (Entity * Velocity)) :
  lookup_storage TVelocity m = Done (Some cV) →
  unique_keys cV →
  (∀ k v, (k, v) ∈ l → get k cV = Some v) →
  ∀ pre fuel (d : list (Entity * Position)),
    keys (all cV) = pre ++ keys l → (length l ≤ fuel)%nat →
    forEach_from TVelocity fuel (movement_visit fadd fmul dt) (keys l)
      (store_through TPosition (mkStorage d r er) m, u) =
    Done (store_through TPosition (mkStorage (advance fadd fmul dt l d) r er) m, u).
Proof.
  intros HlV HuV. induction l as [|[k v] l IH]; intros Hget pre fuel d Hks Hfuel.
  { by destruct fuel. }
  destruct fuel as [|fuel]; [cbn [length] in Hfuel; lia|].
  assert (HV : ∀ d', lookup_storage TVelocity (store_through TPosition (mkStorage d' r er) m)
                     = Done (Some cV)).
  { intros d'. rewrite (lookup_store_through_ne (C:=Comp) TPosition TVelocity); [done|].
    apply position_not_velocity. }
  change (keys ((k, v) :: l)) with (k :: keys l) in *.
  assert (Hpre : k ∉ pre).
  { unfold unique_keys in HuV. unfold all in Hks. rewrite Hks in HuV.
    apply NoDup_app in HuV as (_ & Hdis & _). intros Hin. apply (Hdis k Hin). by left. }
  assert (Hnext : after k (keys (all cV)) = keys l) by (rewrite Hks; by apply after_middle).
  assert (Hrest : ∀ d', forEach_from TVelocity fuel (movement_visit fadd fmul dt) (keys l)
                          (store_through TPosition (mkStorage d' r er) m, u) =
                        Done (store_through TPosition
                                (mkStorage (advance fadd fmul dt l d') r er) m, u)).
  { intros d'. apply (IH ltac:(intros k' v' Hin; apply Hget; by right) (pre ++ [k]));
      [by rewrite <- (assoc_L (++)) | cbn [length] in Hfuel; lia]. }
  cbn [forEach_from fst].
  erewrite (traversed_Some (C:=Comp) TVelocity) by apply HV. repeat bind_done.
  change (Comp TVelocity) with Velocity. rewrite (Hget k v) by left.
  rewrite (movement_visit_moves dt k v _ u (mkStorage d r er)
             (lookup_store_through (C:=Comp) TPosition (mkStorage d r er) m)).
  repeat bind_done. cbn [fst].
  unfold advance. cbn [foldl fst snd]. fold (advance fadd fmul dt).
  unfold get, with_data. cbn [data rehashes erased].
  destruct (find k d) as [p|] eqn:Hf.
  - rewrite store_through_twice.
    erewrite (traversed_Some (C:=Comp) TVelocity) by apply HV. repeat bind_done.
    rewrite iterator_valid_same by done. change (Comp TVelocity) with Velocity.
    rewrite Hnext. apply Hrest.
  - erewrite (traversed_Some (C:=Comp) TVelocity) by apply HV. repeat bind_done.
    rewrite iterator_valid_same by done. change (Comp TVelocity) with Velocity.
    rewrite Hnext. apply Hrest.
Qed.

Lemma keys_advance dt (l : list (Entity * Velocity)) (d : list (Entity * Position)) :
  keys (advance fadd fmul dt l d) = keys d.
Proof.
  unfold advance. revert d. induction l as [|[k v] l IH]; intros d; [done|].
  cbn [foldl fst snd]. rewrite IH. destruct (find k d); [apply keys_assign | done].
Qed.

Lemma find_advance dt (l : list (Entity * Velocity)) (d : list (Entity * Position)) e :
  NoDup (keys l) →
  find e (advance fadd fmul dt l d) =
  match find e d, find e l with
  | Some p, Some v => Some (moved fadd fmul dt p v)
  | o, _ => o
  end.
Proof.
  unfold advance. revert d. induction l as [|[k v] l IH]; intros d Hnd.
  - cbn [foldl find]. by destruct (find e d).
  - change (keys ((k, v) :: l)) with (k :: keys l) in Hnd.
    apply NoDup_cons in Hnd as [Hk Hnd]. cbn [foldl fst snd]. rewrite (IH _ Hnd).
    cbn [find]. destruct (decide (k = e)) as [->|Hne].
    + apply find_None_keys in Hk. rewrite Hk.
      destruct (find e d) as [p|] eqn:Hf.
      * rewrite find_assign, decide_True, Hf by done. done.
      * by rewrite Hf.
    + destruct (find k d) as [p|] eqn:Hf; [|done].
      by rewrite find_assign, decide_False.
Qed.

(** [MovementSystem::update(dt)] returns on every manager, within as many
    steps as there are velocities.  It changes the [Position] components
    only, and of those the value only: an entity with both a position and
    a velocity has its position advanced once by the velocity times [dt];
    an entity with a velocity and no position is skipped, one with a
    position and no velocity keeps it.  The live entities, the free ids,
    the counter, every other storage and the set of entities with a
    position are as before. *)
Theorem MovementSystem_update_moves fuel dt s :
  manager_ok s →
  (nodes TVelocity s ≤ fuel)%nat →
  ∃ s', MovementSystem_update fadd fmul fuel dt s = Done s' ∧
        manager_ok s' ∧
        entities s' = entities s ∧ freeIds s' = freeIds s ∧ nextId s' = nextId s ∧
        (∀ T, T ≠ TPosition → lookup_storage T s' = lookup_storage T s) ∧
        (∀ e, hasComponent TPosition e s' = hasComponent TPosition e s) ∧
        ∀ e, getComponent TPosition e s' =
             (op ← getComponent TPosition e s;
              ov ← getComponent TVelocity e s;
              Done (match op, ov with
                    | Some p, Some v => Some (moved fadd fmul dt p v)
                    | _, _ => op
                    end)).
Proof.
  intros Hok Hfuel. pose proof (manager_ok_typed s Hok) as Hty.
  unfold MovementSystem_update, forEach. cbn [fst].
  destruct (lookup_storage_typed TVelocity s Hty) as [[_ HlV]|(cV & _ & HlV)].
  - rewrite HlV. repeat bind_done. cbn [fst]. exists s. split; [done|].
    do 6 (split; [done|]). intros e. rewrite !getComponent_lookup, HlV.
    destruct (lookup_storage TPosition s) as [[cP|]|f]; [|done..]. repeat bind_done.
    cbn [mbind option_bind]. by destruct (get e cP).
  - rewrite HlV. repeat bind_done.
    rewrite (nodes_Some (C:=Comp) TVelocity s cV HlV) in Hfuel.
    pose proof (manager_ok_lookup TVelocity s cV Hok HlV) as HuV.
    assert (HgetV : ∀ k v, (k, v) ∈ all cV → get k cV = Some v).
    { intros k v Hin. by apply elem_find_unique. }
    destruct (lookup_storage_typed TPosition s Hty) as [[_ HlP]|(cP & _ & HlP)].
    + rewrite (forEach_unchanged (C:=Comp) TVelocity fuel (movement_visit fadd fmul dt)
                 (λ _ _ u, u) s cV tt HlV HuV Hfuel).
      * repeat bind_done. cbn [fst]. exists s. split; [done|].
        do 6 (split; [done|]). intros e. rewrite !getComponent_lookup, HlP, HlV.
        done.
      * intros k v u. by apply movement_visit_skips.
    + pose proof (manager_ok_lookup TPosition s cP Hok HlP) as HuP.
      destruct cP as [d r er].
      set (c' := mkStorage (advance fadd fmul dt (all cV) d) r er).
      assert (Htr : forEach_from TVelocity fuel (movement_visit fadd fmul dt)
                      (keys (all cV)) (s, tt)
                    = Done (store_through TPosition c' s, tt)).
      { etrans; [|apply (movement_traversal dt s tt cV r er (all cV) HlV HuV HgetV []
                           fuel d eq_refl Hfuel)].
        do 2 f_equal. symmetry. by apply (store_through_same (C:=Comp)). }
      exists (store_through TPosition c' s). split; [by rewrite Htr|].
      assert (Hkeys : keys (data c') = keys d) by apply keys_advance.
      split.
      { apply manager_ok_store_through; [done|]. exact (eq_ind_r (NoDup (A:=Entity)) HuP Hkeys). }
      do 3 (split; [done|]).
      split; [intros T Hne; by apply lookup_store_through_ne|].
      split.
      * intros e. rewrite !hasComponent_lookup.
        rewrite (lookup_store_through (C:=Comp) TPosition c' s), HlP. repeat bind_done.
        cbn [from_option]. f_equal.
        apply (has_same_keys e (mkStorage d r er) c' Hkeys).
      * intros e. rewrite !getComponent_lookup.
        rewrite (lookup_store_through (C:=Comp) TPosition c' s), HlP, HlV.
        repeat bind_done. cbn [mbind option_bind]. f_equal.
        unfold get. subst c'. cbn [data].
        etrans; [exact (find_advance dt (all cV) d e HuV)|].
        unfold all. change (Comp TPosition) with Position in *.
        change (Comp TVelocity) with Velocity in *.
        destruct (find e d) as [p|]; [|done].
        by destruct (find e (data cV)).
Qed.
End movement_properties.

(** ** Instances of the further properties *)

Lemma world_reached : run front world_calls new_manager = Done world.
Proof. vm_compute. reflexivity. Qed.

Lemma world_ok : manager_ok world.
Proof. apply (reachable_ok front). exists world_calls. apply world_reached. Qed.

Lemma demo_ids_ok : ids_ok demo.
Proof.
  split; [done|]. split.
  - cbn. apply NoDup_cons_2; [not_listed|]. apply NoDup_cons_2; [not_listed|]. apply NoDup_nil_2.
  - cbn. intros x0 Hx. apply elem_of_cons in Hx as [->|Hx]; [lia|].
    apply list_elem_of_singleton in Hx as ->. lia.
Qed.

Lemma demo_health :
  lookup_storage THealth demo
  = Done (Some (mkStorage [(1, mkHealth 5); (0, mkHealth 3)] 0 [])).
Proof. vm_compute. reflexivity. Qed.

Lemma demo_health_unique : unique_keys (mkStorage [(1, mkHealth 5); (0, mkHealth 3)] 0 []).
Proof. exact (manager_ok_lookup (C:=Comp) THealth demo _ demo_ok demo_health). Qed.

(** A storage of two healths: the health of entity 0 is overwritten, a
    third entity is added. *)
Lemma emplace_then_get_witness :
  unique_keys (mkStorage [(1, mkHealth 5); (0, mkHealth 3)] 0 []) ∧
  get 0 (emplace front 0 (copied (mkHealth 9)) (mkStorage [(1, mkHealth 5); (0, mkHealth 3)] 0 []))
    = Some (mkHealth 9) ∧
  get 1 (emplace front 7 (copied (mkHealth 9)) (mkStorage [(1, mkHealth 5); (0, mkHealth 3)] 0 []))
    = Some (mkHealth 5).
Proof.
  split; [exact demo_health_unique|]. split.
  - exact (proj1 (emplace_then_get front 0 0 (copied (mkHealth 9)) _ demo_health_unique)).
  - exact (proj1 (emplace_then_get front 7 1 (copied (mkHealth 9)) _ demo_health_unique)).
Defined.

(** A storage of two healths: a third entity makes three nodes, removing
    an entity it does not hold leaves two. *)
Lemma storage_size_accounting_witness :
  unique_keys (mkStorage [(1, mkHealth 5); (0, mkHealth 3)] 0 []) ∧
  length (all (emplace front 7 (copied (mkHealth 9))
                 (mkStorage [(1, mkHealth 5); (0, mkHealth 3)] 0 []))) = 3%nat ∧
  length (all (remove 7 (mkStorage [(1, mkHealth 5); (0, mkHealth 3)] 0 []))) = 2%nat.
Proof.
  split; [exact demo_health_unique|].
  pose proof (storage_size_accounting front 7 (copied (mkHealth 9)) _ demo_health_unique)
    as (_ & _ & He & Hr & _).
  split; [exact He | exact Hr].
Defined.

(** Entity 0 of [demo] loses its health. *)
Lemma removeComponent_removes_witness :
  registry_typed demo ∧
  hasComponent THealth 0 demo = Done true ∧
  ∃ s', removeComponent THealth 0 demo = Done s' ∧
        hasComponent THealth 0 s' = Done false.
Proof.
  pose proof (manager_ok_typed demo demo_ok) as Hty.
  split; [exact Hty|]. split; [vm_compute; reflexivity|].
  destruct (removeComponent_removes THealth 0 demo Hty) as (s' & Hrem & Hhas & _).
  exists s'. split; [exact Hrem | exact Hhas].
Defined.

(** Entity 1 of [demo] has no name: it is given one, which is removed. *)
Lemma add_then_remove_restores_witness :
  manager_ok demo ∧
  hasComponent TName 1 demo = Done false ∧
  ∃ s1 s2, addComponent front TName 1 (rvalue_name (mkName "scout")) demo = Done s1 ∧
           removeComponent TName 1 s1 = Done s2 ∧
           ∀ T' e', getComponent T' e' s2 = getComponent T' e' demo ∧
                    hasComponent T' e' s2 = hasComponent T' e' demo.
Proof.
  assert (Hno : hasComponent TName 1 demo = Done false) by (vm_compute; reflexivity).
  split; [exact demo_ok|]. split; [exact Hno|].
  destruct (add_then_remove_restores front TName 1 (rvalue_name (mkName "scout")) demo
              demo_ok Hno) as (s1 & s2 & Hadd & Hrem & Hsame & _).
  exists s1, s2. split; [exact Hadd|]. split; [exact Hrem | exact Hsame].
Defined.

(** The queries on the health of entity 0 of [demo]. *)
Lemma queries_agree_witness :
  manager_ok demo ∧
  (hasComponent THealth 0 demo = Done true ↔
   ∃ v, getComponent THealth 0 demo = Done (Some v)).
Proof.
  split; [exact demo_ok|].
  exact (proj1 (queries_agree THealth 0 demo demo_ok)).
Defined.

(** Destroying entity 0 of [demo] leaves the health of entity 1. *)
Lemma destroyEntity_frame_witness :
  1 ≠ 0 ∧
  getComponent THealth 1 (destroyEntity 0 demo) = getComponent THealth 1 demo ∧
  getComponent THealth 1 demo = Done (Some (mkHealth 5)).
Proof.
  assert (Hne : 1 ≠ 0) by discriminate.
  split; [exact Hne|].
  split; [exact (proj1 (destroyEntity_frame THealth 0 1 demo Hne)) | vm_compute; reflexivity].
Defined.

(** Three entities, the second destroyed: ids 0, 2 and 1 are all there. *)
Lemma ids_never_leak_witness :
  destroys_live front [CreateEntity; CreateEntity; CreateEntity; DestroyEntity 1]
    (new_manager : Manager) ∧
  Z.of_nat 4 < INT_MAX ∧
  run front [CreateEntity; CreateEntity; CreateEntity; DestroyEntity 1] new_manager
    = Done (mkManager 3 [0; 2] [1] ∅ : Manager) ∧
  [0; 2] ++ [1] ≡ₚ seqZ 0 3.
Proof.
  assert (Hd : destroys_live front [CreateEntity; CreateEntity; CreateEntity; DestroyEntity 1]
                 (new_manager : Manager)).
  { cbn. repeat split. right. by left. }
  assert (Hlen : Z.of_nat 4 < INT_MAX) by (vm_compute; reflexivity).
  assert (Hrun : run front [CreateEntity; CreateEntity; CreateEntity; DestroyEntity 1] new_manager
                 = Done (mkManager 3 [0; 2] [1] ∅ : Manager)) by (vm_compute; reflexivity).
  split; [exact Hd|]. split; [exact Hlen|]. split; [exact Hrun|].
  exact (proj1 (ids_never_leak front
                  [CreateEntity; CreateEntity; CreateEntity; DestroyEntity 1] _ Hd Hlen Hrun)).
Defined.

(** The entity created on [demo] has id 2 and no health. *)
Lemma created_entity_is_blank_witness :
  ids_ok demo ∧ nextId demo < INT_MAX ∧ components_live demo ∧ registry_typed demo ∧
  (createEntity demo).1 = 2 ∧
  ((createEntity demo).1 ∉ entities demo).
Proof.
  pose proof (manager_ok_typed demo demo_ok) as Hty.
  assert (Hmax : nextId demo < INT_MAX) by (vm_compute; reflexivity).
  split; [exact demo_ids_ok|]. split; [exact Hmax|]. split; [exact demo_live|].
  split; [exact Hty|]. split; [reflexivity|].
  exact (proj1 (created_entity_is_blank front THealth demo demo_ids_ok Hmax demo_live Hty)).
Defined.

(** Entity 0 of [demo] destroyed: the next entity is 0 again. *)
Lemma destroy_then_create_recycles_witness :
  ids_ok demo ∧ registry_typed demo ∧ 0 ∈ entities demo ∧
  (createEntity (destroyEntity 0 demo)).1 = 0.
Proof.
  pose proof (manager_ok_typed demo demo_ok) as Hty.
  assert (Hin : 0 ∈ entities demo) by (by left).
  split; [exact demo_ids_ok|]. split; [exact Hty|]. split; [exact Hin|].
  exact (proj1 (destroy_then_create_recycles THealth 0 demo demo_ids_ok Hty Hin)).
Defined.

(** Summing the healths of [demo] with either overload of [forEach]. *)
Lemma forEach_overloads_agree_witness :
  manager_ok demo ∧
  (nodes THealth demo ≤ 2)%nat ∧
  (∀ k v u, sum_health k v (demo, u) = Done (demo, u + hp v)) ∧
  forEach THealth 2 sum_health (demo, 0) =
    (u' ← forEach_const THealth (λ _ h u, u + hp h) demo 0; Done (demo, u')) ∧
  forEach_const THealth (λ _ h u, u + hp h) demo 0 = Done 8.
Proof.
  assert (Hf : ∀ k v u, sum_health k v (demo, u) = Done (demo, u + hp v)) by reflexivity.
  assert (Hn : (nodes THealth demo ≤ 2)%nat) by (vm_compute; lia).
  split; [exact demo_ok|]. split; [exact Hn|]. split; [exact Hf|].
  split; [|vm_compute; reflexivity].
  exact (proj1 (forEach_overloads_agree THealth 2 sum_health (λ _ h u, u + hp h) demo 0
                  demo_ok Hn Hf)).
Defined.

(** [cull_next] on [demo]: called on entity 1 it erases nothing, called on
    entity 0 it erases the health of entity 1, which has been visited. *)
Lemma forEach_tolerates_erasure_witness :
  manager_ok demo ∧
  lookup_storage THealth demo
    = Done (Some (mkStorage [(1, mkHealth 5); (0, mkHealth 3)] 0 [])) ∧
  ∃ m' n, forEach THealth 2 cull_next (demo, 0%nat) = Done (m', n) ∧ manager_ok m'.
Proof.
  split; [exact demo_ok|]. split; [exact demo_health|].
  assert (Hstep : ∀ k v (m : Manager) (u : nat) c,
            manager_ok m → lookup_storage THealth m = Done (Some c) → get k c = Some v →
            ∃ m' u' c', cull_next k v (m, u) = Done (m', u') ∧ manager_ok m' ∧
                        lookup_storage THealth m' = Done (Some c') ∧
                        iterator_valid k c c' = true ∧ has k c' = true ∧
                        keys (all c') `sublist_of` keys (all c)).
  { intros k v m u c Hok Hl Hg.
    exists (store_through THealth (remove (k + 1) c) m), (S u), (remove (k + 1) c).
    split.
    { unfold cull_next. cbn [fst snd]. rewrite removeComponent_lookup, Hl. reflexivity. }
    split.
    { apply manager_ok_store_through; [exact Hok|].
      apply unique_keys_remove. exact (manager_ok_lookup THealth m c Hok Hl). }
    split; [apply (lookup_store_through (C:=Comp))|].
    split; [apply iterator_valid_remove_other; lia|]. split.
    { rewrite has_remove, decide_False by lia. exact (get_Some_has k c v Hg). }
    unfold all. rewrite data_remove, keys_erase. apply sublist_filter. }
  assert (Hlen : (length (all (mkStorage [(1%Z, mkHealth 5); (0%Z, mkHealth 3)] 0 [])) ≤ 2)%nat)
    by (vm_compute; lia).
  destruct (forEach_tolerates_erasure THealth 2 cull_next manager_ok demo 0%nat _
              Hstep demo_ok demo_health demo_health_unique Hlen)
    as (m' & n & c' & vs & Hrun & _ & Hok' & _).
  exists m', n. split; [exact Hrun | exact Hok'].
Defined.

(** [demo] has healths 3 and 5: two updates return, a third does not. *)
Lemma HealthSystem_ticks_outcome_witness :
  manager_ok demo ∧
  lookup_storage THealth demo
    = Done (Some (mkStorage [(1, mkHealth 5); (0, mkHealth 3)] 0 [])) ∧
  HealthSystem_ticks 2 2 demo [] =
    Done (store_through THealth (mkStorage [(1, mkHealth 3); (0, mkHealth 1)] 0 []) demo, []) ∧
  HealthSystem_ticks 3 2 demo [] = Fault InvalidIterator.
Proof.
  assert (Hr : Forall (λ kv : Entity * Health, INT_MIN < hp kv.2 ≤ INT_MAX)
                 (all (mkStorage [(1, mkHealth 5); (0, mkHealth 3)] 0 []))).
  { repeat constructor; cbn; unfold INT_MIN, INT_MAX; lia. }
  assert (Hlen : (length (all (mkStorage [(1%Z, mkHealth 5); (0%Z, mkHealth 3)] 0 [])) ≤ 2)%nat)
    by (vm_compute; lia).
  split; [exact demo_ok|]. split; [exact demo_health|].
  rewrite (HealthSystem_ticks_outcome 2 2 demo [] _ demo_ok demo_health Hr Hlen).
  rewrite (HealthSystem_ticks_outcome 3 2 demo [] _ demo_ok demo_health Hr Hlen).
  split; vm_compute; reflexivity.
Defined.

(** The lines of [world]: entity 1 unnamed and without health, entity 0. *)
Lemma RenderSystem_render_lines_witness :
  manager_ok world ∧
  (nodes TPosition world ≤ 2)%nat ∧
  RenderSystem_render 2 world [] =
    Done (world, [mkLine "unnamed" 1 f1 f0 (-1); mkLine "Entity_0" 0 f0 f0 100]).
Proof.
  assert (Hn : (nodes TPosition world ≤ 2)%nat) by (vm_compute; lia).
  split; [exact world_ok|]. split; [exact Hn|].
  rewrite (proj1 (RenderSystem_render_lines 2 world [] world_ok Hn)).
  vm_compute. reflexivity.
Defined.

(** One update of [world] with [dt = 1.0f] in binary32: entity 0 moves
    from the origin to (1, 1), entity 1 has no velocity and stays. *)
Lemma MovementSystem_update_moves_witness :
  manager_ok world ∧
  (nodes TVelocity world ≤ 2)%nat ∧
  ∃ s', MovementSystem_update binary32_add binary32_mul 2 f1 world = Done s' ∧
        getComponent TPosition 0 s' = Done (Some (mkPosition f1 f1)) ∧
        getComponent TPosition 1 s' = Done (Some (mkPosition f1 f0)) ∧
        getComponent TPosition 2 s' = Done None.
Proof.
  assert (Hn : (nodes TVelocity world ≤ 2)%nat) by (vm_compute; lia).
  split; [exact world_ok|]. split; [exact Hn|].
  destruct (MovementSystem_update_moves binary32_add binary32_mul 2 f1 world world_ok Hn)
    as (s' & Hrun & _ & _ & _ & _ & _ & _ & Hget).
  exists s'. split; [exact Hrun|].
  rewrite !Hget. repeat split; vm_compute; reflexivity.
Defined.

(** Four calls on a new manager: the counter is within [int]. *)
Lemma run_counter_in_int_witness :
  run front [CreateEntity; CreateEntity; CreateEntity; DestroyEntity 1] new_manager
    = Done (mkManager 3 [0; 2] [1] ∅ : Manager) ∧
  Z.of_nat 4 < INT_MAX ∧
  0 ≤ 3 < INT_MAX.
Proof.
  assert (Hrun : run front [CreateEntity; CreateEntity; CreateEntity; DestroyEntity 1] new_manager
                 = Done (mkManager 3 [0; 2] [1] ∅ : Manager)) by (vm_compute; reflexivity).
  assert (Hlen : Z.of_nat 4 < INT_MAX) by (vm_compute; reflexivity).
  split; [exact Hrun|]. split; [exact Hlen|].
  exact (run_counter_in_int front
           [CreateEntity; CreateEntity; CreateEntity; DestroyEntity 1] _ Hrun Hlen).
Defined.

(** A traversal that meets an insertion into its own map, on the healths
    of [demo], entity 1 and then entity 0: a node linked before the
    iterator is not visited, a node linked after it is, and after a rehash
    the increment of the iterator is undefined. *)
Lemma forEach_meets_insertion :
  (∃ m, forEach THealth 3 (spawn front) (demo, 0%nat) = Done (m, 2%nat) ∧
        visited THealth m = Done [(5, mkHealth 9); (1, mkHealth 5); (0, mkHealth 3)]) ∧
  (∃ m, forEach THealth 3 (spawn (λ _ l, Link (length l))) (demo, 0%nat) = Done (m, 3%nat) ∧
        visited THealth m = Done [(1, mkHealth 5); (0, mkHealth 3); (5, mkHealth 9)]) ∧
  forEach THealth 3 (spawn (λ _ _, Rehash [])) (demo, 0%nat) = Fault InvalidIterator.
Proof.
  split; [|split].
  - eexists. split; vm_compute; reflexivity.
  - eexists. split; vm_compute; reflexivity.
  - vm_compute. reflexivity.
Qed.
